(** * A line-oriented memcached client: protocol framing over a transport

    Shallow embedding of the Go package [memcached]: the [Transport]
    interface, its socket implementation [TransportSocket] over a model of
    [net.Conn] and [bufio.Reader], the key validator and the three client
    operations [Set], [Get] and [Delete] with their shared [command]
    preamble.

    Conventions.  A Go [string] is a [string] (a sequence of 8-bit
    characters), a [[]byte] is a [list ascii], [int] and [int32] values are
    [Z].  A Go method on a pointer receiver is a computation in the monad
    [M S] over the state [S] it mutates; a run-time panic is the outcome
    [Panic].  An [error] value is a constructor carrying the arguments of
    the format string that builds it in the source. *)

From Stdlib Require Import String Ascii List ZArith Lia Bool Arith DecimalString.
From Stdlib Require DecimalPos.
Import ListNotations.
Local Open Scope string_scope.

Set Implicit Arguments.

(** ** Bytes and strings *)

Definition CR : ascii := "013"%char.
Definition LF : ascii := "010"%char.

(** The line terminator ["\r\n"]. *)
Definition CRLF : string := String CR (String LF EmptyString).

(** [len(s)]: the number of bytes of a string. *)
Definition len (s : string) : nat := String.length s.

(** [[]byte(s)] and [string(b)]. *)
Definition bytes_of (s : string) : list ascii := list_ascii_of_string s.
Definition string_of (b : list ascii) : string := string_of_list_ascii b.

(** [make([]byte, n)] for a length that is not negative. *)
Definition zeroes (n : nat) : list ascii := repeat zero n.

(** ** Errors *)

(** Every error the package builds or passes on.  [ErrIO] is an error of
    the [net], [io] or [bufio] layer; the other constructors stand for one
    [fmt.Errorf] call each and carry its argument. *)
Inductive error : Type :=
| ErrIO (msg : string)
| ErrCannotConnect (cause : error)        (* "cannot connect: %q\n" *)
| ErrEmptyKey                             (* "empty key\n" *)
| ErrKeyTooLong                           (* "key too long\n" *)
| ErrInvalidKey                           (* "invalid key\n" *)
| ErrNotStored (resp : string)            (* "value is not stored: %q\n" *)
| ErrParseHeader (header : string)        (* "cannot parse header: %q\n" *)
| ErrUnexpectedEnd (line : string)        (* "unexpected end: %q\n" *)
| ErrDeleteFailed (resp : string)         (* "delete failed: %q\n" *)
| ErrWrite (cause : error)                (* "write error: %q\n" *)
| ErrRead (cause : error)                 (* "read error: %q\n" *)
| ErrNonexistentCommand (cmd : string)    (* "nonexistent command: %q\n" *)
| ErrProtocol (line : string).            (* "error: %q\n" *)

(** ** Computations that mutate a state and may panic *)

Inductive outcome (S A : Type) : Type :=
| Ok (a : A) (s : S)
| Panic (msg : string) (s : S).

Arguments Ok {S A} a s.
Arguments Panic {S A} msg s.

Definition M (S A : Type) : Type := S -> outcome S A.

Definition ret {S A : Type} (a : A) : M S A := fun s => Ok a s.

Definition bind {S A B : Type} (m : M S A) (f : A -> M S B) : M S B :=
  fun s =>
    match m s with
    | Ok a s' => f a s'
    | Panic msg s' => Panic msg s'
    end.

Definition panic {S A : Type} (msg : string) : M S A := fun s => Panic msg s.

Declare Scope go_scope.
Delimit Scope go_scope with go.
Notation "x <- m ;; k" := (bind m (fun x => k))
  (at level 61, m at next level, right associativity) : go_scope.
Notation "' p <- m ;; k" := (bind m (fun x => let 'p := x in k))
  (at level 61, p pattern, m at next level, right associativity) : go_scope.
Notation "m ;;; k" := (bind m (fun _ => k))
  (at level 61, right associativity) : go_scope.

(** The state an outcome ends in. *)
Definition final_state {S A : Type} (o : outcome S A) : S :=
  match o with
  | Ok _ s => s
  | Panic _ s => s
  end.

(** ** [fmt.Sprintf] for the verbs the package uses *)

Inductive arg : Type :=
| ArgS (s : string)      (* an operand printed by [%s] *)
| ArgD (z : Z).          (* an operand printed by [%d] *)

(** [%d]: decimal digits, with a leading minus sign for a negative number. *)
Definition fmt_d (z : Z) : string := NilZero.string_of_int (Z.to_int z).

Definition fmt_arg (a : arg) : string :=
  match a with
  | ArgS s => s
  | ArgD z => fmt_d z
  end.

(** The format is copied to the output; each [%s] or [%d] is replaced by
    the next operand.  A verb with no operand left prints Go's
    [%!v(MISSING)] marker. *)
Fixpoint Sprintf (format : string) (args : list arg) : string :=
  match format with
  | EmptyString => EmptyString
  | String "%"%char (String v rest) =>
      match args with
      | a :: args' => fmt_arg a ++ Sprintf rest args'
      | [] => "%!" ++ String v ("(MISSING)" ++ Sprintf rest [])
      end
  | String c rest => String c (Sprintf rest args)
  end.

(** ** The key validator *)

(** [type key string] and [type ttl int32]. *)
Definition key : Type := string.
Definition ttl : Type := Z.

(** One item of a regular-expression character class. *)
Inductive class_item : Type :=
| Range (lo hi : nat)    (* [\xLO-\xHI] *)
| PerlSpace.             (* [\s] *)

(** RE2's [\s] is the set [\t\n\f\r ]. *)
Definition perl_space (c : nat) : bool :=
  ((c =? 9) || (c =? 10) || (c =? 12) || (c =? 13) || (c =? 32))%nat.

Definition item_matches (c : nat) (i : class_item) : bool :=
  match i with
  | Range lo hi => ((lo <=? c) && (c <=? hi))%nat
  | PerlSpace => perl_space c
  end.

Definition class_matches (cls : list class_item) (c : ascii) : bool :=
  existsb (item_matches (nat_of_ascii c)) cls.

(** [regexp.MustCompile(cls).MatchString(s)] for a regular expression that
    is one character class: some character of [s] is in the class.  Every
    member of the class below is an ASCII character, which UTF-8 encodes as
    the single byte of the same value and which occurs in no longer
    encoding, so the match is decided byte by byte. *)
Fixpoint MatchString (cls : list class_item) (s : string) : bool :=
  match s with
  | EmptyString => false
  | String c rest => class_matches cls c || MatchString cls rest
  end.

(** The class [[\x00-\x1F\x7F\s]]. *)
Definition re : list class_item := [Range 0 31; Range 127 127; PerlSpace].

Module Key.

Definition isValid (k : key) : option error :=
  if (len k =? 0)%nat then Some ErrEmptyKey
  else if (250 <? len k)%nat then Some ErrKeyTooLong
  else if MatchString re k then Some ErrInvalidKey
  else None.

End Key.

Module Ttl.

Definition isValid (t : ttl) : option error := None.

End Ttl.

(** ** [fmt.Sscanf] on the header format

    [fmt.Sscanf(header, "VALUE %s %d %d\r\n", &key, &flags, &bytes)],
    step by step as [fmt]'s scanner runs the format: literal text has to
    match the input, a space in the format matches one or more spaces of
    the input (or its end), each verb first skips spaces, and the closing
    ["\r\n"] matches spaces followed by a newline or the end of the input.
    The count returned is the number of operands stored before the first
    mismatch.  Characters are bytes here: of [fmt]'s space characters the
    six ASCII ones are modelled. *)

Definition isSpace (c : ascii) : bool :=
  let n := nat_of_ascii c in
  (((9 <=? n) && (n <=? 13)) || (n =? 32))%nat.

Definition isDigit (c : ascii) : bool :=
  let n := nat_of_ascii c in
  ((48 <=? n) && (n <=? 57))%nat.

(** Spaces other than the newline are dropped from the front. *)
Fixpoint skip_blanks (inp : string) : string :=
  match inp with
  | EmptyString => EmptyString
  | String c rest =>
      if isSpace c && negb (c =? LF)%char then skip_blanks rest else inp
  end.

(** The longest prefix whose characters satisfy [p], and what follows. *)
Fixpoint span (p : ascii -> bool) (inp : string) : string * string :=
  match inp with
  | EmptyString => (EmptyString, EmptyString)
  | String c rest =>
      if p c then let '(tok, rest') := span p rest in (String c tok, rest')
      else (EmptyString, inp)
  end.

(** Literal text of the format; [None] is the scanner's
    "input does not match format". *)
Fixpoint match_literal (lit inp : string) : option string :=
  match lit with
  | EmptyString => Some inp
  | String c lit' =>
      match inp with
      | EmptyString => None
      | String d inp' => if (c =? d)%char then match_literal lit' inp' else None
      end
  end.

(** A space of the format that stands alone. *)
Definition match_space (inp : string) : option string :=
  match inp with
  | EmptyString => Some EmptyString
  | String c rest =>
      if negb (isSpace c) then None
      else if (c =? LF)%char then None
      else Some (skip_blanks rest)
  end.

(** The ["\r\n"] that ends the format. *)
Definition match_newline (inp : string) : option string :=
  match skip_blanks inp with
  | EmptyString => Some EmptyString
  | String c rest => if (c =? LF)%char then Some rest else None
  end.

(** [SkipSpace]: a newline met while skipping is "unexpected newline". *)
Definition SkipSpace (inp : string) : option string :=
  match skip_blanks inp with
  | EmptyString => Some EmptyString
  | String c rest => if (c =? LF)%char then None else Some (String c rest)
  end.

(** [%s]: the next word. *)
Definition scan_s (inp : string) : option (string * string) :=
  match SkipSpace inp with
  | None => None
  | Some EmptyString => None
  | Some inp' => Some (span (fun c => negb (isSpace c)) inp')
  end.

Fixpoint digits_value (acc : Z) (tok : string) : option Z :=
  match tok with
  | EmptyString => Some acc
  | String c rest =>
      if isDigit c
      then digits_value (10 * acc + (Z.of_nat (nat_of_ascii c) - 48)) rest
      else None
  end.

(** [%d] into an [int]: an optional sign, then digits and underscores;
    [strconv.ParseInt] in base 10 refuses an underscore and a value that
    does not fit 64 bits. *)
Definition scan_d (inp : string) : option (Z * string) :=
  match SkipSpace inp with
  | None => None
  | Some EmptyString => None
  | Some (String c rest as inp') =>
      let '(neg, body) :=
        if (c =? "-")%char then (true, rest)
        else if (c =? "+")%char then (false, rest)
        else (false, inp') in
      let '(tok, rest') := span (fun d => isDigit d || (d =? "_")%char) body in
      match tok with
      | EmptyString => None
      | _ =>
          match digits_value 0 tok with
          | None => None
          | Some v =>
              let z := if neg then (- v)%Z else v in
              if ((- 2 ^ 63 <=? z) && (z <? 2 ^ 63))%Z then Some (z, rest')
              else None
          end
      end
  end.

(** The number of operands stored and the three variables afterwards,
    given their values before. *)
Definition Sscanf_VALUE (header : string) (k : key) (flags bytes : Z)
  : nat * (key * Z * Z) :=
  match match_literal "VALUE" header with
  | None => (0, (k, flags, bytes))
  | Some i0 =>
  match match_space i0 with
  | None => (0, (k, flags, bytes))
  | Some i1 =>
  match scan_s i1 with
  | None => (0, (k, flags, bytes))
  | Some (k', i2) =>
  match match_space i2 with
  | None => (1, (k', flags, bytes))
  | Some i3 =>
  match scan_d i3 with
  | None => (1, (k', flags, bytes))
  | Some (flags', i4) =>
  match match_space i4 with
  | None => (2, (k', flags', bytes))
  | Some i5 =>
  match scan_d i5 with
  | None => (2, (k', flags', bytes))
  | Some (bytes', _) => (3, (k', flags', bytes'))
  end end end end end end end.

(** ** The transport interface *)

Module Transport.

(** [type Transport interface]: an implementation with state [S].  [Read]
    is handed the caller's slice and may write into it: its result is the
    contents of that slice after the call, then the two values the Go
    method returns. *)
Class Impl (S : Type) : Type := {
  connect : M S (option error);
  Close : M S unit;
  Write : string -> M S (option error);
  Read : list ascii -> M S (list ascii * (string * option error))
}.

End Transport.

(** ** The network: [net.Dial] and [net.Conn]

    The world outside the process: the stream connections opened so far,
    each with the bytes written to it and the segments that its peer will
    still deliver, the outcomes of the dials still to come, and what was
    printed on standard output. *)

Definition handle : Type := nat.

Record connState : Type := mkConn {
  closed : bool;
  sent : list ascii;
  incoming : list (list ascii)
}.

Record World : Type := mkWorld {
  conns : list connState;
  dials : list (option (list (list ascii)));
  stdout : list (string * error)
}.

(** The error of every operation on a connection that was closed. *)
Definition errClosed : error := ErrIO "use of closed network connection".
Definition errRefused : error := ErrIO "connection refused".
Definition EOF : error := ErrIO "EOF".

Fixpoint replace_nth {A : Type} (n : nat) (x : A) (l : list A) : list A :=
  match l, n with
  | [], _ => []
  | _ :: tl, O => x :: tl
  | y :: tl, S n' => y :: replace_nth n' x tl
  end.

Definition set_conn (h : handle) (c : connState) (w : World) : World :=
  mkWorld (replace_nth h c (conns w)) (dials w) (stdout w).

(** [net.Dial]: a new connection, whose handle no earlier connection has,
    or an error. *)
Definition Dial (network address : string) (w : World)
  : (handle + error) * World :=
  match dials w with
  | Some segments :: later =>
      (inl (length (conns w)),
       mkWorld (conns w ++ [mkConn false [] segments])%list later (stdout w))
  | None :: later => (inr errRefused, mkWorld (conns w) later (stdout w))
  | [] => (inr errRefused, w)
  end.

Definition conn_Close (h : handle) (w : World) : option error * World :=
  match nth_error (conns w) h with
  | None => (Some errClosed, w)
  | Some c =>
      if closed c then (Some errClosed, w)
      else (None, set_conn h (mkConn true (sent c) (incoming c)) w)
  end.

Definition conn_Write (h : handle) (data : list ascii) (w : World)
  : option error * World :=
  match nth_error (conns w) h with
  | None => (Some errClosed, w)
  | Some c =>
      if closed c then (Some errClosed, w)
      else (None, set_conn h (mkConn false (sent c ++ data)%list (incoming c)) w)
  end.

(** The first segment that holds a byte, and the segments after it. *)
Fixpoint next_segment (segs : list (list ascii))
  : option (list ascii * list (list ascii)) :=
  match segs with
  | [] => None
  | [] :: later => next_segment later
  | seg :: later => Some (seg, later)
  end.

(** [conn.Read(p)] with [len(p) = room > 0]: the bytes of the next segment,
    as many as fit; the end of the stream once the peer has no more. *)
Definition conn_Read (h : handle) (room : nat) (w : World)
  : (list ascii * option error) * World :=
  match nth_error (conns w) h with
  | None => (([], Some errClosed), w)
  | Some c =>
      if closed c then (([], Some errClosed), w)
      else
        match next_segment (incoming c) with
        | None => (([], Some EOF), set_conn h (mkConn false (sent c) []) w)
        | Some (seg, later) =>
            let rest := match skipn room seg with
                        | [] => later
                        | remainder => remainder :: later
                        end in
            ((firstn room seg, None),
             set_conn h (mkConn false (sent c) rest) w)
        end
  end.

(** ** [bufio.Reader]

    The reader holds the bytes it has taken from the connection and not yet
    handed out.  Its buffer has room for [bufSize] bytes. *)

Record Reader : Type := mkReader {
  rd : handle;
  buf : list ascii
}.

Definition bufSize : nat := 4096.

Definition NewReader (h : handle) : Reader := mkReader h [].

(** [copy(p, src)]: the slice [p] afterwards and the number of bytes copied. *)
Definition copy (p src : list ascii) : list ascii * nat :=
  let n := Nat.min (length p) (length src) in
  ((firstn n src ++ skipn n p)%list, n).

(** [b.Read(p)]: buffered bytes if there are any, else the bytes of one
    read of the connection; as many of them as [p] holds, and no more even
    when [p] is longer. *)
Definition Reader_Read (p : list ascii) (b : Reader) (w : World)
  : (list ascii * nat * option error) * Reader * World :=
  match p with
  | [] => ((p, 0%nat, None), b, w)
  | _ :: _ =>
      match buf b with
      | [] =>
          let room := if (bufSize <=? length p)%nat then length p else bufSize in
          let '((data, err), w') := conn_Read (rd b) room w in
          match err with
          | Some e => ((p, 0%nat, Some e), b, w')
          | None =>
              let '(p', n) := copy p data in
              ((p', n, None), mkReader (rd b) (skipn n data), w')
          end
      | _ :: _ =>
          let '(p', n) := copy p (buf b) in
          ((p', n, None), mkReader (rd b) (skipn n (buf b)), w)
      end
  end.

(** The bytes up to and including the first line feed, and those after. *)
Fixpoint split_line (l : list ascii) : option (list ascii * list ascii) :=
  match l with
  | [] => None
  | c :: tl =>
      if (c =? LF)%char then Some ([c], tl)
      else match split_line tl with
           | Some (line, rest) => Some (c :: line, rest)
           | None => None
           end
  end.

(** [b.ReadString('\n')]: the connection is read until the buffer holds a
    line feed; a full buffer without one is moved to the result and filled
    again.  An error before the line feed is returned with the bytes read
    so far.  [fuel] bounds the number of rounds. *)
Fixpoint ReadString_loop (fuel : nat) (acc : list ascii) (b : Reader) (w : World)
  : (string * option error) * Reader * World :=
  match split_line (buf b) with
  | Some (line, rest) =>
      ((string_of (acc ++ line)%list, None), mkReader (rd b) rest, w)
  | None =>
      match fuel with
      | O => ((string_of (acc ++ buf b)%list, Some (ErrIO "no progress")),
              mkReader (rd b) [], w)
      | S fuel' =>
          if (bufSize <=? length (buf b))%nat
          then ReadString_loop fuel' (acc ++ buf b)%list (mkReader (rd b) []) w
          else
            let '((data, err), w') :=
              conn_Read (rd b) (bufSize - length (buf b)) w in
            match err with
            | Some e =>
                ((string_of (acc ++ buf b)%list, Some e), mkReader (rd b) [], w')
            | None =>
                ReadString_loop fuel' acc (mkReader (rd b) (buf b ++ data)%list) w'
            end
      end
  end.

(** The bytes a connection has still to deliver. *)
Definition pending (h : handle) (w : World) : nat :=
  match nth_error (conns w) h with
  | None => 0
  | Some c => length (concat (incoming c))
  end.

(** Every round but the last takes a byte off the connection or empties a
    full buffer, so twice the pending bytes and two rounds are enough. *)
Definition ReadString (b : Reader) (w : World)
  : (string * option error) * Reader * World :=
  ReadString_loop (2 * pending (rd b) w + 2) [] b w.

(** ** The socket transport *)

Module TransportSocket.

(** [type TransportSocket struct]. *)
Record t : Type := mk {
  network : string;
  address : string;
  conn : option handle;
  reader : option Reader
}.

(** The struct and the world its connection lives in. *)
Record state : Type := mkState {
  sock : t;
  world : World
}.

Definition nilDeref : string :=
  "invalid memory address or nil pointer dereference".

Definition connect : M state (option error) :=
  fun s =>
    let ts := sock s in
    match conn ts with
    | Some _ => Ok None s
    | None =>
        match Dial (network ts) (address ts) (world s) with
        | (inr dialErr, w') =>
            Ok (Some (ErrCannotConnect dialErr))
               (mkState (mk (network ts) (address ts) None (reader ts)) w')
        | (inl h, w') =>
            Ok None
               (mkState (mk (network ts) (address ts) (Some h)
                            (Some (NewReader h))) w')
        end
    end.

Definition Close : M state unit :=
  fun s =>
    match conn (sock s) with
    | None => Ok tt s
    | Some h =>
        match conn_Close h (world s) with
        | (Some err, w') =>
            Ok tt (mkState (sock s)
                     (mkWorld (conns w') (dials w')
                        (stdout w' ++ [("cannot close connection: ", err)])%list))
        | (None, w') => Ok tt (mkState (sock s) w')
        end
    end.

Definition Write (data : string) : M state (option error) :=
  fun s =>
    match conn (sock s) with
    | None => Panic nilDeref s
    | Some h =>
        let '(err, w') := conn_Write h (bytes_of data) (world s) in
        Ok err (mkState (sock s) w')
    end.

Definition with_reader (ts : t) (b : Reader) : t :=
  mk (network ts) (address ts) (conn ts) (Some b).

Definition Read (bytes : list ascii)
  : M state (list ascii * (string * option error)) :=
  fun s =>
    match reader (sock s) with
    | None => Panic nilDeref s
    | Some b =>
        if (length bytes =? 0)%nat then
          let '((line, err), b', w') := ReadString b (world s) in
          let s' := mkState (with_reader (sock s) b') w' in
          match err with
          | Some e => Ok (bytes, ("", Some e)) s'
          | None => Ok (bytes, (line, None)) s'
          end
        else
          let '((bytes', _, err), b', w') := Reader_Read bytes b (world s) in
          let s' := mkState (with_reader (sock s) b') w' in
          match err with
          | Some e => Ok (bytes', ("", Some e)) s'
          | None => Ok (bytes', (string_of bytes', None)) s'
          end
    end.

Definition NewTransportSocket (network address : string) : t :=
  mk network address None None.

#[global] Instance impl : Transport.Impl state := {|
  Transport.connect := connect;
  Transport.Close := Close;
  Transport.Write := Write;
  Transport.Read := Read
|}.

End TransportSocket.

(** ** The protocol client *)

Module Memcached.

Section Client.

Context {S : Type} {T : Transport.Impl S}.

Local Open Scope go_scope.

Definition Close : M S unit := Transport.Close.

Definition command (cmd : string) : M S (string * option error) :=
  connectErr <- Transport.connect ;;
  match connectErr with
  | Some e => ret ("", Some e)
  | None =>
  writeErr <- Transport.Write (cmd ++ CRLF) ;;
  match writeErr with
  | Some e => Close ;;; ret ("", Some (ErrWrite e))
  | None =>
  '(_, (line, readErr)) <- Transport.Read [] ;;
  match readErr with
  | Some e => Close ;;; ret ("", Some (ErrRead e))
  | None =>
  if line =? "ERROR" ++ CRLF
  then ret ("", Some (ErrNonexistentCommand cmd))
  else if prefix "CLIENT_ERROR " line || prefix "SERVER_ERROR " line
  then ret ("", Some (ErrProtocol line))
  else ret (line, None)
  end end end.

(** [Memcached.Set]; the name is a reserved word here. *)
Definition Set_ (k : key) (value : string) (t : ttl) : M S (option error) :=
  match Key.isValid k with
  | Some e => ret (Some e)
  | None =>
  match Ttl.isValid t with
  | Some e => ret (Some e)
  | None =>
  let cmd := Sprintf ("set %s 0 %d %d" ++ CRLF ++ "%s")
               [ArgS k; ArgD t; ArgD (Z.of_nat (len value)); ArgS value] in
  '(resp, err) <- command cmd ;;
  match err with
  | Some e => ret (Some e)
  | None =>
  if negb (resp =? "STORED" ++ CRLF) then ret (Some (ErrNotStored resp))
  else ret err
  end end end.

(** [make([]byte, bytes)] panics on a negative length; a length too large
    to allocate is not told apart from one that fits. *)
Definition Get (k : key) : M S (string * option error) :=
  match Key.isValid k with
  | Some e => ret ("", Some e)
  | None =>
  let eof := "END" ++ CRLF in
  let cmd := Sprintf "get %s" [ArgS k] in
  '(header, err) <- command cmd ;;
  match err with
  | Some e => ret ("", Some e)
  | None =>
  if header =? eof then ret ("", None) else
  let '(n, (_, _, bytes)) := Sscanf_VALUE header k 0 0 in
  if negb (n =? 3)%nat then ret ("", Some (ErrParseHeader header)) else
  if (bytes <? 0)%Z then panic "makeslice: len out of range" else
  let dataBuf := zeroes (Z.to_nat bytes) in
  '(dataBuf, (_, err)) <- Transport.Read dataBuf ;;
  match err with
  | Some e => ret ("", Some e)
  | None =>
  let rnEof := CRLF ++ eof in
  let rnEofLen := len rnEof in
  let rnEofBuf := zeroes rnEofLen in
  '(rnEofBuf, (_, err)) <- Transport.Read rnEofBuf ;;
  match err with
  | Some e => ret ("", Some e)
  | None =>
  let line := string_of rnEofBuf in
  if negb (line =? rnEof) then ret ("", Some (ErrUnexpectedEnd line)) else
  ret (string_of dataBuf, None)
  end end end end.

Definition Delete (k : key) : M S (option error) :=
  match Key.isValid k with
  | Some e => ret (Some e)
  | None =>
  let cmd := Sprintf "delete %s" [ArgS k] in
  '(resp, err) <- command cmd ;;
  match err with
  | Some e => ret (Some e)
  | None =>
  if negb (resp =? "DELETED" ++ CRLF) then ret (Some (ErrDeleteFailed resp))
  else ret None
  end end.

End Client.

(** [NewMemcached]: the client owns a socket transport that is not
    connected yet. *)
Definition NewMemcached (network address : string)
  : TransportSocket.t * option error :=
  (TransportSocket.NewTransportSocket network address, None).

End Memcached.

(** ** A transport that records the calls it receives

    Any transport can be wrapped so that every call made on it is written
    to a log before its result is passed on. *)

Inductive call : Type :=
| CallConnect
| CallClose
| CallWrite (data : string)
| CallRead (size : nat).

Module Traced.

Section Wrap.

Context {S : Type} {T : Transport.Impl S}.

Definition logged {A : Type} (c : call) (m : M S A) : M (S * list call) A :=
  fun sl =>
    match m (fst sl) with
    | Ok a s' => Ok a (s', (snd sl ++ [c])%list)
    | Panic msg s' => Panic msg (s', (snd sl ++ [c])%list)
    end.

Instance impl : Transport.Impl (S * list call) := {|
  Transport.connect := logged CallConnect Transport.connect;
  Transport.Close := logged CallClose Transport.Close;
  Transport.Write data := logged (CallWrite data) (Transport.Write data);
  Transport.Read bytes := logged (CallRead (length bytes)) (Transport.Read bytes)
|}.

End Wrap.

End Traced.

#[global] Existing Instance Traced.impl.

(** The data of the write calls of a log, in order. *)
Fixpoint writes (l : list call) : list string :=
  match l with
  | [] => []
  | CallWrite data :: tl => data :: writes tl
  | _ :: tl => writes tl
  end.

(** ** The key rules as the specification words them *)

(** An ASCII control character: 0x00 to 0x1F, or 0x7F. *)
Definition is_control (c : ascii) : bool :=
  let n := nat_of_ascii c in ((n <=? 31) || (n =? 127))%nat.

(** A white space character: tab, line feed, vertical tab, form feed,
    carriage return or space. *)
Definition is_whitespace (c : ascii) : bool :=
  let n := nat_of_ascii c in (((9 <=? n) && (n <=? 13)) || (n =? 32))%nat.

(** ** Clients and peers to run the operations on *)

(** What a computation returned, if it did. *)
Definition result {S A : Type} (o : outcome S A) : option A :=
  match o with
  | Ok a _ => Some a
  | Panic _ _ => None
  end.

(** A world with no connection yet, where the dials to come reach, in
    turn, peers that will send the given segments. *)
Definition world_of (peers : list (list string)) : World :=
  mkWorld [] (map (fun segs => Some (map bytes_of segs)) peers) [].

(** The client [NewMemcached("tcp", "localhost:11211")] makes, in a world. *)
Definition client (w : World) : TransportSocket.state :=
  TransportSocket.mkState (fst (Memcached.NewMemcached "tcp" "localhost:11211")) w.

(** A world where no server listens. *)
Definition nobody : World := mkWorld [] [None] [].

(** A client whose socket holds a connection that has been closed. *)
Definition client_closed : TransportSocket.state :=
  TransportSocket.mkState
    (TransportSocket.mk "tcp" "localhost:11211" (Some 0) (Some (NewReader 0)))
    (mkWorld [mkConn true [] []] [Some []] []).

(** The lines and responses of a server, as the wire protocol gives them. *)
Definition STORED : string := "STORED" ++ CRLF.
Definition DELETED : string := "DELETED" ++ CRLF.
Definition END : string := "END" ++ CRLF.

(** The response to the fetch of a stored value:
    [VALUE <key> <flags> <len>\r\n<len bytes>\r\n<terminator>\r\n]. *)
Definition VALUE (k : key) (flags : Z) (value : string) : string :=
  "VALUE " ++ k ++ " " ++ fmt_d flags ++ " " ++ fmt_d (Z.of_nat (len value))
    ++ CRLF ++ value ++ CRLF ++ END.

(** The value that [examples/basic.go] stores:
    ["Hello World!\nEND\r\nBut no!\n\n"]. *)
Definition original : string :=
  "Hello World!" ++ String LF ("END" ++ CRLF ++ "But no!"
    ++ String LF (String LF "")).

(** The bytes a socket transport can still hand out: those its reader
    holds, then those its connection has not delivered yet. *)
Definition unread (s : TransportSocket.state) : list ascii :=
  match TransportSocket.reader (TransportSocket.sock s) with
  | None => []
  | Some b =>
      (buf b ++
       match nth_error (conns (TransportSocket.world s)) (rd b) with
       | None => []
       | Some c => concat (incoming c)
       end)%list
  end.

(** ** Response lines, headers and call sequences *)

(** A first line that [command] answers with an error of its own. *)
Definition is_error_line (line : string) : bool :=
  (line =? "ERROR" ++ CRLF)
  || prefix "CLIENT_ERROR " line || prefix "SERVER_ERROR " line.


(** The call sequences the shared preamble can make for a command text:
    the connect alone; then the write, followed or not by a close; then the
    read of a line, followed or not by a close. *)
Definition preamble_calls (text : string) : list (list call) :=
  let w := CallWrite (text ++ CRLF) in
  [ [CallConnect];
    [CallConnect; w];
    [CallConnect; w; CallClose];
    [CallConnect; w; CallRead 0];
    [CallConnect; w; CallRead 0; CallClose] ].

(** The longer call sequences of a fetch that reads a payload of [n] bytes
    and then the seven bytes that follow it. *)
Definition payload_calls (text : string) (n : nat) : list (list call) :=
  let w := CallWrite (text ++ CRLF) in
  [ [CallConnect; w; CallRead 0; CallRead n];
    [CallConnect; w; CallRead 0; CallRead n; CallRead 7] ].

(** The calls a transport that records them has received at the end of a
    computation. *)
Definition calls_of {S A : Type} (o : outcome (S * list call) A) : list call :=
  snd (final_state o).

(** A socket whose reader is set whenever its connection is. *)
Definition wired (s : TransportSocket.state) : Prop :=
  TransportSocket.conn (TransportSocket.sock s) <> None ->
  TransportSocket.reader (TransportSocket.sock s) <> None.

(** The bytes a connection has still to deliver, in order. *)
Definition stream (h : handle) (w : World) : list ascii :=
  match nth_error (conns w) h with
  | None => []
  | Some c => concat (incoming c)
  end.

(** Two states of a socket with the same connection handle, in worlds
    with the same dials still to come. *)
Definition same_link (s s' : TransportSocket.state) : Prop :=
  TransportSocket.conn (TransportSocket.sock s') =
    TransportSocket.conn (TransportSocket.sock s) /\
  dials (TransportSocket.world s') = dials (TransportSocket.world s).

(** A computation that, run on a socket that holds a connection, ends with
    the same handle and has dialled nothing. *)
Definition keeps_link {A : Type} (m : M TransportSocket.state A) : Prop :=
  forall s,
    TransportSocket.conn (TransportSocket.sock s) <> None ->
    same_link s (final_state (m s)).

(** * Properties *)

(** ** Strings *)

Lemma append_nil_r (s : string) : s ++ "" = s.
Proof. induction s as [|c s IH]; simpl; [reflexivity | now rewrite IH]. Qed.

Lemma append_assoc (a b c : string) : (a ++ b) ++ c = a ++ (b ++ c).
Proof. induction a as [|x a IH]; simpl; [reflexivity | now rewrite IH]. Qed.

Lemma len_zero (s : string) : len s = 0 <-> s = "".
Proof. destruct s; simpl; split; intro H; try reflexivity; discriminate. Qed.

Lemma prefix_append (p l : string) :
  prefix p l = true <-> exists rest, l = p ++ rest.
Proof.
  revert l; induction p as [|a p IH]; intro l.
  - split; [exists l; reflexivity | intros _; now destruct l].
  - destruct l as [|b l]; simpl.
    + split; [discriminate | intros [rest Hr]; discriminate].
    + destruct (ascii_dec a b) as [->|Hab].
      * rewrite IH. split; intros [rest Hr]; exists rest.
        -- now rewrite Hr.
        -- now inversion Hr.
      * split; [discriminate | intros [rest Hr]; simpl in Hr; congruence].
Qed.

(** ** The key validator *)

Lemma class_is_control_or_whitespace (c : ascii) :
  class_matches re c = is_control c || is_whitespace c.
Proof.
  destruct c as [b0 b1 b2 b3 b4 b5 b6 b7].
  destruct b0, b1, b2, b3, b4, b5, b6, b7; reflexivity.
Qed.

Lemma MatchString_true (k : string) :
  MatchString re k = true <->
  exists c, In c (bytes_of k) /\ (is_control c = true \/ is_whitespace c = true).
Proof.
  unfold bytes_of.
  induction k as [|a k IH]; cbn [MatchString list_ascii_of_string In].
  - split; [discriminate | intros [c [[] _]]].
  - rewrite orb_true_iff, IH, class_is_control_or_whitespace, orb_true_iff.
    split.
    + intros [H | [c [Hin Hc]]].
      * exists a; split; [now left | exact H].
      * exists c; split; [now right | exact Hc].
    + intros [c [[<- | Hin] Hc]].
      * now left.
      * right; exists c; now split.
Qed.

Lemma MatchString_false (k : string) :
  MatchString re k = false <->
  forall c, In c (bytes_of k) -> is_control c = false /\ is_whitespace c = false.
Proof.
  split.
  - intros H c Hin.
    destruct (is_control c) eqn:E1, (is_whitespace c) eqn:E2; auto;
      assert (MatchString re k = true) as Ht
        by (apply MatchString_true; exists c; split; auto);
      rewrite Ht in H; discriminate.
  - intro H. destruct (MatchString re k) eqn:E; [|reflexivity].
    apply MatchString_true in E. destruct E as [c [Hin Hc]].
    destruct (H c Hin) as [H1 H2]. rewrite H1, H2 in Hc.
    destruct Hc; discriminate.
Qed.

(** C4. [isValid] applies its rules in order and the first failing rule
    wins: the empty key is refused with the empty-key error; otherwise a key
    of more than 250 bytes with the key-too-long error; otherwise a key
    holding a control character (0x00 to 0x1F, 0x7F) or a white space
    character with the invalid-key error; every other key is accepted.  The
    key is judged as it is given. *)
Theorem isValid_rules_in_order (k : key) :
  (k = "" -> Key.isValid k = Some ErrEmptyKey) /\
  (k <> "" -> 250 < len k -> Key.isValid k = Some ErrKeyTooLong) /\
  (k <> "" -> len k <= 250 ->
   (exists c, In c (bytes_of k) /\
              (is_control c = true \/ is_whitespace c = true)) ->
   Key.isValid k = Some ErrInvalidKey) /\
  (k <> "" -> len k <= 250 ->
   (forall c, In c (bytes_of k) ->
              is_control c = false /\ is_whitespace c = false) ->
   Key.isValid k = None).
Proof.
  unfold Key.isValid. repeat split.
  - intros ->. reflexivity.
  - intros Hne Hlen.
    destruct (Nat.eqb_spec (len k) 0) as [E|_]; [now apply len_zero in E|].
    destruct (Nat.ltb_spec 250 (len k)); [reflexivity | lia].
  - intros Hne Hlen Hbad.
    destruct (Nat.eqb_spec (len k) 0) as [E|_]; [now apply len_zero in E|].
    destruct (Nat.ltb_spec 250 (len k)); [lia|].
    apply MatchString_true in Hbad. now rewrite Hbad.
  - intros Hne Hlen Hgood.
    destruct (Nat.eqb_spec (len k) 0) as [E|_]; [now apply len_zero in E|].
    destruct (Nat.ltb_spec 250 (len k)); [lia|].
    apply MatchString_false in Hgood. now rewrite Hgood.
Qed.

Lemma isValid_rules_in_order_witness :
  Key.isValid "" = Some ErrEmptyKey /\
  Key.isValid (string_of (repeat "a"%char 251)) = Some ErrKeyTooLong /\
  Key.isValid "a b" = Some ErrInvalidKey /\
  Key.isValid "foo" = None.
Proof.
  split; [|split; [|split]].
  - apply (proj1 (isValid_rules_in_order "")). reflexivity.
  - apply (proj1 (proj2 (isValid_rules_in_order
                           (string_of (repeat "a"%char 251))))).
    + discriminate.
    + vm_compute. lia.
  - apply (proj1 (proj2 (proj2 (isValid_rules_in_order "a b")))).
    + discriminate.
    + simpl. lia.
    + exists " "%char. split; [simpl; auto | right; reflexivity].
  - apply (proj2 (proj2 (proj2 (isValid_rules_in_order "foo")))).
    + discriminate.
    + simpl. lia.
    + intros c [<- | [<- | [<- | []]]]; split; reflexivity.
Defined.

(** ** The client over any transport *)

Section AnyTransport.

Context {S : Type} {T : Transport.Impl S}.

Lemma Set_command_text (k : key) (value : string) (t : ttl) :
  Sprintf ("set %s 0 %d %d" ++ CRLF ++ "%s")
    [ArgS k; ArgD t; ArgD (Z.of_nat (len value)); ArgS value] =
  "set " ++ k ++ " 0 " ++ fmt_d t ++ " " ++ fmt_d (Z.of_nat (len value))
    ++ CRLF ++ value.
Proof.
  unfold CRLF, CR, LF. cbn [append Sprintf fmt_arg].
  now rewrite append_nil_r.
Qed.

Lemma Get_command_text (k : key) : Sprintf "get %s" [ArgS k] = "get " ++ k.
Proof. cbn [append Sprintf fmt_arg]. now rewrite append_nil_r. Qed.

Lemma Delete_command_text (k : key) :
  Sprintf "delete %s" [ArgS k] = "delete " ++ k.
Proof. cbn [append Sprintf fmt_arg]. now rewrite append_nil_r. Qed.

(** A key that fails validation ends each operation at once, in the state
    it started in. *)
Lemma invalid_key_returns_at_once (k : key) (e : error) (value : string)
  (t : ttl) (s : S) :
  Key.isValid k = Some e ->
  Memcached.Set_ k value t s = Ok (Some e) s /\
  Memcached.Get k s = Ok ("", Some e) s /\
  Memcached.Delete k s = Ok (Some e) s.
Proof.
  intro H. unfold Memcached.Set_, Memcached.Get, Memcached.Delete.
  rewrite H. repeat split.
Qed.

Lemma isValid_error_kind (k : key) (e : error) :
  Key.isValid k = Some e ->
  e = ErrEmptyKey \/ e = ErrKeyTooLong \/ e = ErrInvalidKey.
Proof.
  unfold Key.isValid.
  destruct (len k =? 0)%nat; [intros [= <-]; auto|].
  destruct (250 <? len k)%nat; [intros [= <-]; auto|].
  destruct (MatchString re k); [intros [= <-]; auto | discriminate].
Qed.

End AnyTransport.

(** C6. With a key that fails validation, [Set], [Get] and [Delete] return
    the validation error before any I/O: run on a transport that records
    its calls, each leaves the log as it was, so the transport has received
    no connect, write or read, and the state of the transport is the one
    before the call. *)
Theorem invalid_key_reaches_no_transport {S : Type} {T : Transport.Impl S}
  (k : key) (e : error) (value : string) (t : ttl) (s : S) (l : list call) :
  Key.isValid k = Some e ->
  (e = ErrEmptyKey \/ e = ErrKeyTooLong \/ e = ErrInvalidKey) /\
  Memcached.Set_ k value t (s, l) = Ok (Some e) (s, l) /\
  Memcached.Get k (s, l) = Ok ("", Some e) (s, l) /\
  Memcached.Delete k (s, l) = Ok (Some e) (s, l).
Proof.
  intro H. split.
  - now apply isValid_error_kind with k.
  - now apply invalid_key_returns_at_once.
Qed.

(** C7. The shared preamble of every command.  When the connect step fails
    the client returns the connection error in the state that step left, with
    no further call on the transport; when the write of the command line
    fails it closes the transport and returns a write error; when the read
    of the first line fails it closes the transport and returns a read
    error. *)
Theorem command_io_failures {S : Type} {T : Transport.Impl S}
  (cmd : string) (s : S) :
  (forall e s1,
     Transport.connect s = Ok (Some e) s1 ->
     Memcached.command cmd s = Ok ("", Some e) s1) /\
  (forall e s1 s2,
     Transport.connect s = Ok None s1 ->
     Transport.Write (cmd ++ CRLF) s1 = Ok (Some e) s2 ->
     Memcached.command cmd s =
       bind Transport.Close (fun _ => ret ("", Some (ErrWrite e))) s2) /\
  (forall e s1 s2 s3 b line,
     Transport.connect s = Ok None s1 ->
     Transport.Write (cmd ++ CRLF) s1 = Ok None s2 ->
     Transport.Read [] s2 = Ok (b, (line, Some e)) s3 ->
     Memcached.command cmd s =
       bind Transport.Close (fun _ => ret ("", Some (ErrRead e))) s3).
Proof.
  unfold Memcached.command, Memcached.Close. repeat split.
  - intros e s1 Hc. unfold bind at 1. now rewrite Hc.
  - intros e s1 s2 Hc Hw. unfold bind at 1. rewrite Hc.
    unfold bind at 1. now rewrite Hw.
  - intros e s1 s2 s3 b line Hc Hw Hr. unfold bind at 1. rewrite Hc.
    unfold bind at 1. rewrite Hw. unfold bind at 1. now rewrite Hr.
Qed.

(** C8. Once the first response line has been read, the line ["ERROR\r\n"]
    makes the command return the unknown-command error; a line that starts
    with ["CLIENT_ERROR "] or with ["SERVER_ERROR "] makes it return a
    protocol error that carries the line; every other line is returned as it
    was read, for the operation to continue with. *)
Theorem command_classifies_first_line {S : Type} {T : Transport.Impl S}
  (cmd : string) (s s1 s2 s3 : S) (b : list ascii) (line : string) :
  Transport.connect s = Ok None s1 ->
  Transport.Write (cmd ++ CRLF) s1 = Ok None s2 ->
  Transport.Read [] s2 = Ok (b, (line, None)) s3 ->
  (line = "ERROR" ++ CRLF ->
   Memcached.command cmd s = Ok ("", Some (ErrNonexistentCommand cmd)) s3) /\
  ((exists text, line = "CLIENT_ERROR " ++ text) \/
   (exists text, line = "SERVER_ERROR " ++ text) ->
   Memcached.command cmd s = Ok ("", Some (ErrProtocol line)) s3) /\
  (line <> "ERROR" ++ CRLF ->
   ~ (exists text, line = "CLIENT_ERROR " ++ text) ->
   ~ (exists text, line = "SERVER_ERROR " ++ text) ->
   Memcached.command cmd s = Ok (line, None) s3).
Proof.
  intros Hc Hw Hr.
  assert (Memcached.command cmd s =
          (if line =? "ERROR" ++ CRLF
           then ret ("", Some (ErrNonexistentCommand cmd))
           else if prefix "CLIENT_ERROR " line || prefix "SERVER_ERROR " line
           then ret ("", Some (ErrProtocol line))
           else ret (line, None)) s3) as ->.
  { unfold Memcached.command. unfold bind at 1. rewrite Hc.
    unfold bind at 1. rewrite Hw. unfold bind at 1. now rewrite Hr. }
  repeat split.
  - intros ->. now rewrite String.eqb_refl.
  - intros Hp.
    assert (prefix "CLIENT_ERROR " line || prefix "SERVER_ERROR " line = true)
      as Hb.
    { apply orb_true_iff. destruct Hp as [Hp | Hp]; [left | right];
        now apply prefix_append. }
    rewrite Hb.
    destruct (String.eqb_spec line ("ERROR" ++ CRLF)) as [-> | _];
      [discriminate Hb | reflexivity].
  - intros Hne Hnc Hns.
    destruct (String.eqb_spec line ("ERROR" ++ CRLF)) as [E | _];
      [contradiction|].
    destruct (prefix "CLIENT_ERROR " line) eqn:Ec;
      [apply prefix_append in Ec; contradiction|].
    destruct (prefix "SERVER_ERROR " line) eqn:Es;
      [apply prefix_append in Es; contradiction|].
    reflexivity.
Qed.

(** C9. For a valid key, when the first line of the response to [get] is
    the terminator line ["END\r\n"], [Get] returns the empty result and no
    error. *)
Theorem Get_terminator_is_no_value {S : Type} {T : Transport.Impl S}
  (k : key) (s s1 s2 s3 : S) (b : list ascii) :
  Key.isValid k = None ->
  Transport.connect s = Ok None s1 ->
  Transport.Write ("get " ++ k ++ CRLF) s1 = Ok None s2 ->
  Transport.Read [] s2 = Ok (b, ("END" ++ CRLF, None)) s3 ->
  Memcached.Get k s = Ok ("", None) s3.
Proof.
  intros Hk Hc Hw Hr.
  unfold Memcached.Get. rewrite Hk, Get_command_text.
  unfold Memcached.command. unfold bind at 1. unfold bind at 1.
  rewrite Hc. unfold bind at 1. rewrite append_assoc, Hw.
  unfold bind at 1. rewrite Hr. reflexivity.
Qed.

(** C5. For a valid key, once the transport is connected, [Set] writes to
    it exactly the bytes
    ["set " + key + " 0 " + ttl + " " + len(value) + "\r\n" + value + "\r\n"]
    and nothing else: the flags are 0, the length is that of the raw value,
    the value is not escaped, and the terminator after it is the one the
    command step appends. *)
Theorem Set_writes_wire_text {S : Type} {T : Transport.Impl S}
  (k : key) (value : string) (t : ttl) (s s1 : S) :
  Key.isValid k = None ->
  Transport.connect s = Ok None s1 ->
  writes (snd (final_state (Memcached.Set_ k value t (s, [])))) =
  ["set " ++ k ++ " 0 " ++ fmt_d t ++ " " ++ fmt_d (Z.of_nat (len value))
     ++ CRLF ++ value ++ CRLF].
Proof.
  intros Hk Hc.
  unfold Memcached.Set_. rewrite Hk. cbn [Ttl.isValid].
  rewrite Set_command_text.
  unfold Memcached.command, Memcached.Close.
  cbn [Transport.connect Transport.Write Transport.Read Transport.Close
       Traced.impl].
  unfold bind, Traced.logged, ret. cbn [fst snd]. rewrite Hc. cbn [fst snd].
  rewrite !append_assoc.
  destruct (Transport.Write _ s1) as [[e|] s2 | msg s2]; cbn [fst snd].
  - destruct (Transport.Close s2) as [[] s3 | msg s3]; reflexivity.
  - destruct (Transport.Read [] s2) as [[b [line [e|]]] s3 | msg s3];
      cbn [fst snd].
    + destruct (Transport.Close s3) as [[] s4 | msg s4]; reflexivity.
    + destruct (line =? "ERROR" ++ CRLF); [reflexivity|].
      destruct (prefix "CLIENT_ERROR " line || prefix "SERVER_ERROR " line);
        [reflexivity|].
      destruct (negb (line =? "STORED" ++ CRLF)); reflexivity.
    + reflexivity.
  - reflexivity.
Qed.

(** ** The theorems above on the socket transport *)

Lemma invalid_key_reaches_no_transport_witness :
  Memcached.Set_ "" "x" 10%Z (client (world_of [[STORED]]), @nil call) =
    Ok (Some ErrEmptyKey) (client (world_of [[STORED]]), @nil call) /\
  Memcached.Get "a b" (client (world_of [[END]]), @nil call) =
    Ok ("", Some ErrInvalidKey) (client (world_of [[END]]), @nil call).
Proof.
  split.
  - apply (invalid_key_reaches_no_transport "" "x" 10%Z
             (client (world_of [[STORED]])) (@nil call)).
    reflexivity.
  - apply (invalid_key_reaches_no_transport "a b" "x" 10%Z
             (client (world_of [[END]])) (@nil call)).
    reflexivity.
Defined.

Lemma command_io_failures_witness :
  result (Memcached.command "get foo" (client nobody)) =
    Some ("", Some (ErrCannotConnect errRefused)) /\
  result (Memcached.command "get foo" client_closed) =
    Some ("", Some (ErrWrite errClosed)) /\
  result (Memcached.command "get foo" (client (world_of [[]]))) =
    Some ("", Some (ErrRead EOF)).
Proof.
  split; [|split].
  - erewrite (proj1 (command_io_failures "get foo" (client nobody)));
      reflexivity.
  - erewrite (proj1 (proj2 (command_io_failures "get foo" client_closed)));
      [ | reflexivity .. ].
    reflexivity.
  - erewrite (proj2 (proj2 (command_io_failures "get foo"
                              (client (world_of [[]])))));
      [ | reflexivity .. ].
    reflexivity.
Defined.

Lemma command_classifies_first_line_witness :
  result (Memcached.command "bogus" (client (world_of [["ERROR" ++ CRLF]]))) =
    Some ("", Some (ErrNonexistentCommand "bogus")) /\
  result (Memcached.command "get foo"
            (client (world_of [["SERVER_ERROR out of memory" ++ CRLF]]))) =
    Some ("", Some (ErrProtocol ("SERVER_ERROR out of memory" ++ CRLF))) /\
  result (Memcached.command "delete foo" (client (world_of [[DELETED]]))) =
    Some (DELETED, None).
Proof.
  split; [|split].
  - refine (f_equal result
      (proj1 (command_classifies_first_line "bogus"
                (client (world_of [["ERROR" ++ CRLF]])) _ _ _) _));
      reflexivity.
  - refine (f_equal result
      (proj1 (proj2 (command_classifies_first_line "get foo"
         (client (world_of [["SERVER_ERROR out of memory" ++ CRLF]]))
         _ _ _)) _)); try reflexivity.
    right. exists ("out of memory" ++ CRLF). reflexivity.
  - refine (f_equal result
      (proj2 (proj2 (command_classifies_first_line "delete foo"
                       (client (world_of [[DELETED]])) _ _ _)) _ _ _));
      try reflexivity.
    + discriminate.
    + intros [text H]. discriminate H.
    + intros [text H]. discriminate H.
Defined.

Lemma Get_terminator_is_no_value_witness :
  result (Memcached.Get "foo" (client (world_of [[END]]))) = Some ("", None).
Proof.
  refine (f_equal result
    (Get_terminator_is_no_value "foo" (client (world_of [[END]])) _ _ _ _));
    reflexivity.
Defined.

Lemma Set_writes_wire_text_witness :
  writes (snd (final_state
    (Memcached.Set_ "foo" original 10%Z
       (client (world_of [[STORED]]), @nil call)))) =
  ["set foo 0 10 27" ++ CRLF ++ original ++ CRLF].
Proof.
  refine (Set_writes_wire_text "foo" original 10%Z
            (client (world_of [[STORED]])) _ _); reflexivity.
Defined.

(** ** The buffered reader: the rounds of [ReadString] are enough *)

Lemma nth_error_replace_nth {A : Type} (l : list A) (n : nat) (x y : A) :
  nth_error l n = Some y -> nth_error (replace_nth n x l) n = Some x.
Proof.
  revert n; induction l as [|a l IH]; intros [|n] H; simpl in *;
    try discriminate; auto.
Qed.

Lemma next_segment_length (segs : list (list ascii)) seg later :
  next_segment segs = Some (seg, later) ->
  seg <> [] /\
  length (concat segs) = length seg + length (concat later).
Proof.
  induction segs as [|[|c s0] segs IH]; simpl; intro H.
  - discriminate.
  - now apply IH.
  - injection H as <- <-. split; [discriminate|].
    simpl. now rewrite length_app.
Qed.

(** A read that succeeds takes at least one byte off the connection. *)
Lemma conn_Read_takes_bytes (h : handle) (room : nat) (w w' : World) data :
  0 < room ->
  conn_Read h room w = ((data, None), w') ->
  0 < length data /\ pending h w' + length data = pending h w.
Proof.
  intros Hroom. unfold conn_Read, pending.
  destruct (nth_error (conns w) h) as [c|] eqn:Hc; [|discriminate].
  destruct (closed c); [discriminate|].
  destruct (next_segment (incoming c)) as [[seg later]|] eqn:Hn; [|discriminate].
  intros [= <- <-].
  destruct (next_segment_length _ Hn) as [Hne Hlen].
  cbn [conns set_conn]. rewrite (nth_error_replace_nth _ _ _ Hc).
  cbn [incoming]. rewrite Hlen.
  pose proof (firstn_skipn room seg) as Hsplit.
  apply (f_equal (@length ascii)) in Hsplit. rewrite length_app in Hsplit.
  split.
  - destruct seg as [|a seg]; [contradiction|].
    destruct room; [lia|]. simpl. lia.
  - destruct (skipn room seg) as [|a rest] eqn:Hs.
    + simpl in Hsplit. lia.
    + cbn [concat]. rewrite length_app. lia.
Qed.

(** With more rounds than twice the pending bytes (and one more for a full
    buffer), one more round changes nothing: the loop never ends for want
    of rounds. *)
Lemma ReadString_loop_enough (fuel : nat) :
  forall acc b w,
    2 * pending (rd b) w + (if (bufSize <=? length (buf b))%nat then 1 else 0)
      < fuel ->
    ReadString_loop fuel acc b w = ReadString_loop (S fuel) acc b w.
Proof.
  induction fuel as [|fuel IH]; intros acc b w Hfuel; [lia|].
  change (ReadString_loop (S (S fuel)) acc b w) with
    (match split_line (buf b) with
     | Some (line, rest) =>
         ((string_of (acc ++ line)%list, None), mkReader (rd b) rest, w)
     | None =>
         if (bufSize <=? length (buf b))%nat
         then ReadString_loop (S fuel) (acc ++ buf b)%list (mkReader (rd b) []) w
         else
           let '((data, err), w') :=
             conn_Read (rd b) (bufSize - length (buf b)) w in
           match err with
           | Some e =>
               ((string_of (acc ++ buf b)%list, Some e), mkReader (rd b) [], w')
           | None =>
               ReadString_loop (S fuel) acc
                 (mkReader (rd b) (buf b ++ data)%list) w'
           end
     end).
  cbn [ReadString_loop].
  destruct (split_line (buf b)) as [[line rest]|]; [reflexivity|].
  destruct (Nat.leb_spec bufSize (length (buf b))) as [Hfull|Hroom].
  - apply IH. cbn [rd buf length]. unfold bufSize at 1. cbn [Nat.leb]. lia.
  - destruct (conn_Read (rd b) (bufSize - length (buf b)) w)
      as [[data [e|]] w'] eqn:Hr; [reflexivity|].
    apply conn_Read_takes_bytes in Hr; [|lia].
    apply IH. cbn [rd buf].
    destruct (bufSize <=? length (buf b ++ data))%nat; lia.
Qed.

(** [ReadString] gives the result of the loop run for any larger number of
    rounds. *)
Lemma ReadString_rounds_suffice (n : nat) (b : Reader) (w : World) :
  ReadString_loop (n + (2 * pending (rd b) w + 2)) [] b w = ReadString b w.
Proof.
  unfold ReadString. induction n as [|n IH]; [reflexivity|].
  cbn [Nat.add]. rewrite <- ReadString_loop_enough; [exact IH|].
  destruct (bufSize <=? length (buf b))%nat; lia.
Qed.

(** When the reader already holds as many bytes as are asked for, the
    exact-length mode of the socket transport hands out just these. *)
Lemma Read_from_full_buffer (s : TransportSocket.state) (b : Reader)
  (bytes : list ascii) :
  TransportSocket.reader (TransportSocket.sock s) = Some b ->
  0 < length bytes <= length (buf b) ->
  Transport.Read bytes s =
  Ok (firstn (length bytes) (buf b),
      (string_of (firstn (length bytes) (buf b)), None))
     (TransportSocket.mkState
        (TransportSocket.with_reader (TransportSocket.sock s)
           (mkReader (rd b) (skipn (length bytes) (buf b))))
        (TransportSocket.world s)).
Proof.
  intros Hb [Hpos Hlen].
  cbn [Transport.Read TransportSocket.impl]. unfold TransportSocket.Read.
  rewrite Hb.
  destruct (Nat.eqb_spec (length bytes) 0) as [E|_]; [lia|].
  unfold Reader_Read, copy.
  destruct bytes as [|c bytes]; [simpl in Hpos; lia|].
  destruct (buf b) as [|d rest] eqn:Hbuf; [simpl in Hlen; lia|].
  rewrite Nat.min_l by exact Hlen.
  rewrite skipn_all, app_nil_r. reflexivity.
Qed.

Lemma Read_from_full_buffer_witness :
  result (Transport.Read (zeroes 2)
            (TransportSocket.mkState
               (TransportSocket.mk "tcp" "localhost:11211" (Some 0)
                  (Some (mkReader 0 (bytes_of "abc"))))
               (mkWorld [mkConn false [] []] [] []))) =
  Some (bytes_of "ab", ("ab", None)).
Proof.
  erewrite Read_from_full_buffer; [ | reflexivity | simpl; lia ].
  reflexivity.
Defined.

(** Keys are judged byte by byte: a byte above 0x7F, alone or as part of a
    longer encoding, is neither a control nor a white space character. *)
Example isValid_high_bytes :
  Key.isValid (String "194" (String "160" "")) = None.
Proof. reflexivity. Qed.

(** ** The socket transport *)

Local Open Scope go_scope.

(** The run of [examples/basic.go] against a server that answers within
    one segment each time: the value comes back as it was stored, and after
    the delete the fetch is empty. *)
Example basic_go_run :
  result
    ((e1 <- Memcached.Set_ "foo" original 10%Z ;;
      r1 <- Memcached.Get "foo" ;;
      e2 <- Memcached.Delete "foo" ;;
      r2 <- Memcached.Get "foo" ;;
      ret (e1, r1, e2, r2))
       (client (world_of [[STORED; VALUE "foo" 0 original; DELETED; END]]))) =
  Some (None, (original, None), None, ("", None)).
Proof. reflexivity. Qed.

(** C1 (the code departs from it).  A client stores a value and is closed
    by its caller; a second server connection could be dialled.  The
    connect step of the next command returns at once on the handle that was
    closed: the state is the same after it, no dial is made, and the
    command fails with a write error on the closed connection.  The same
    happens after the client itself has closed the connection on a failed
    read. *)
Theorem closed_handle_is_reused :
  let s := final_state
    ((Memcached.Set_ "foo" "x" 10%Z ;;; Memcached.Close)
       (client (world_of [[STORED]; [END]]))) in
  let s' := final_state
    (Memcached.Get "foo" (client (world_of [[]; [END]]))) in
  (TransportSocket.conn (TransportSocket.sock s) = Some 0 /\
   option_map closed (nth_error (conns (TransportSocket.world s)) 0) =
     Some true /\
   Transport.connect s = Ok None s /\
   dials (TransportSocket.world s) = [Some [bytes_of END]] /\
   result (Memcached.Get "foo" s) = Some ("", Some (ErrWrite errClosed))) /\
  (result (Memcached.Get "foo" (client (world_of [[]; [END]]))) =
     Some ("", Some (ErrRead EOF)) /\
   Transport.connect s' = Ok None s' /\
   dials (TransportSocket.world s') = [Some [bytes_of END]] /\
   result (Memcached.Get "foo" s') = Some ("", Some (ErrWrite errClosed))).
Proof. vm_compute. repeat split. Qed.

(** C2 (the code departs from it).  Four bytes are asked of a connection
    whose peer sends ["abcd"] in two segments: the read succeeds with the
    two bytes of the first segment followed by the two bytes the caller's
    slice held, and the bytes ["cd"] stay unread.  When the peer sends
    ["ab"] and ends the stream, the read succeeds in the same way instead of
    failing. *)
Theorem exact_read_is_one_read :
  let s := final_state (Transport.connect (client (world_of [["ab"; "cd"]]))) in
  let s' := final_state (Transport.connect (client (world_of [["ab"]]))) in
  let short := (bytes_of "ab" ++ zeroes 2)%list in
  (unread s = bytes_of "abcd" /\
   result (Transport.Read (zeroes 4) s) = Some (short, (string_of short, None)) /\
   unread (final_state (Transport.Read (zeroes 4) s)) = bytes_of "cd") /\
  (unread s' = bytes_of "ab" /\
   result (Transport.Read (zeroes 4) s') = Some (short, (string_of short, None)) /\
   unread (final_state (Transport.Read (zeroes 4) s')) = []).
Proof. vm_compute. repeat split. Qed.

(** C3 (the code departs from it).  Against a server that answers as the
    wire protocol says, storing the empty value and fetching it does not
    return the empty value but an unexpected-end error; and storing
    ["Hello"] and fetching it fails in the same way when the response
    arrives in two segments that split the payload. *)
Theorem round_trip_fails :
  result
    ((e <- Memcached.Set_ "foo" "" 10%Z ;;
      r <- Memcached.Get "foo" ;;
      ret (e, r))
       (client (world_of [[STORED; VALUE "foo" 0 ""]]))) =
  Some (None,
        ("", Some (ErrUnexpectedEnd (END ++ String zero (String zero ""))))) /\
  result
    ((e <- Memcached.Set_ "foo" "Hello" 10%Z ;;
      r <- Memcached.Get "foo" ;;
      ret (e, r))
       (client (world_of [[STORED;
                           "VALUE foo 0 5" ++ CRLF ++ "Hel";
                           "lo" ++ CRLF ++ END]]))) =
  Some (None, ("", Some (ErrUnexpectedEnd ("lo" ++ CRLF ++ "END")))).
Proof. vm_compute. split; reflexivity. Qed.

(** C10 (the code departs from it).  For the key ["foo"], the bare
    terminator line makes [Get] return the empty string and no error, but
    the response that carries a stored empty value, a header declaring zero
    bytes followed by ["\r\nEND\r\n"], makes it return an unexpected-end
    error: the read asked for zero bytes takes a whole line. *)
Theorem Get_empty_value_is_an_error :
  result (Memcached.Get "foo" (client (world_of [[END]]))) =
    Some ("", None) /\
  VALUE "foo" 0 "" = "VALUE foo 0 0" ++ CRLF ++ CRLF ++ END /\
  result (Memcached.Get "foo" (client (world_of [[VALUE "foo" 0 ""]]))) =
    Some ("", Some (ErrUnexpectedEnd (END ++ String zero (String zero "")))) /\
  unread (final_state
            (Memcached.Get "foo" (client (world_of [[VALUE "foo" 0 ""]])))) = [].
Proof. vm_compute. repeat split. Qed.

(** * Further properties *)

(** ** The operations over any transport *)

Lemma command_line_read {S : Type} {T : Transport.Impl S}
  (cmd : string) (s s1 s2 s3 : S) (b : list ascii) (line : string) :
  Transport.connect s = Ok None s1 ->
  Transport.Write (cmd ++ CRLF) s1 = Ok None s2 ->
  Transport.Read [] s2 = Ok (b, (line, None)) s3 ->
  is_error_line line = false ->
  Memcached.command cmd s = Ok (line, None) s3.
Proof.
  intros Hc Hw Hr He. unfold is_error_line in He.
  apply orb_false_iff in He. destruct He as [He Hs].
  apply orb_false_iff in He. destruct He as [He Hcl].
  unfold Memcached.command. unfold bind at 1. rewrite Hc.
  unfold bind at 1. rewrite Hw. unfold bind at 1. rewrite Hr.
  now rewrite He, Hcl, Hs.
Qed.

(** X1. Once the command of [Set] has been written and a first line has
    been read that is not one of the error lines, [Set] succeeds when the
    line is ["STORED\r\n"] and in every other case returns the not-stored
    error, which carries the line. *)
Theorem Set_result_by_line {S : Type} {T : Transport.Impl S}
  (k : key) (value : string) (t : ttl) (s s1 s2 s3 : S)
  (b : list ascii) (line : string) :
  Key.isValid k = None ->
  Transport.connect s = Ok None s1 ->
  Transport.Write
    ("set " ++ k ++ " 0 " ++ fmt_d t ++ " " ++ fmt_d (Z.of_nat (len value))
       ++ CRLF ++ value ++ CRLF) s1 = Ok None s2 ->
  Transport.Read [] s2 = Ok (b, (line, None)) s3 ->
  is_error_line line = false ->
  (line = STORED -> Memcached.Set_ k value t s = Ok None s3) /\
  (line <> STORED ->
   Memcached.Set_ k value t s = Ok (Some (ErrNotStored line)) s3).
Proof.
  intros Hk Hc Hw Hr He.
  assert (Memcached.Set_ k value t s =
          Ok (if negb (line =? "STORED" ++ CRLF)
              then Some (ErrNotStored line) else None) s3) as ->.
  { unfold Memcached.Set_. rewrite Hk. cbn [Ttl.isValid].
    rewrite Set_command_text. unfold bind at 1.
    rewrite (command_line_read _ s (s2 := s2) (s3 := s3) (b := b)
               (line := line) Hc); auto.
    - now destruct (negb (line =? "STORED" ++ CRLF)).
    - now rewrite !append_assoc. }
  fold STORED. split.
  - intros ->. now rewrite String.eqb_refl.
  - intro Hne. apply String.eqb_neq in Hne. now rewrite Hne.
Qed.

Lemma Set_result_by_line_witness :
  result (Memcached.Set_ "foo" "bar" 10%Z (client (world_of [[STORED]]))) =
    Some None /\
  result (Memcached.Set_ "foo" "bar" 10%Z
            (client (world_of [["NOT_STORED" ++ CRLF]]))) =
    Some (Some (ErrNotStored ("NOT_STORED" ++ CRLF))).
Proof.
  split.
  - refine (f_equal result
      (proj1 (Set_result_by_line "foo" "bar" 10%Z
                (client (world_of [[STORED]])) _ _ _ _ _) _));
      reflexivity.
  - refine (f_equal result
      (proj2 (Set_result_by_line "foo" "bar" 10%Z
                (client (world_of [["NOT_STORED" ++ CRLF]])) _ _ _ _ _) _));
      try reflexivity.
    discriminate.
Defined.

(** X2. Once the command of [Delete] has been written and a first line has
    been read that is not one of the error lines, [Delete] succeeds when the
    line is ["DELETED\r\n"]; every other line, such as the ["NOT_FOUND\r\n"]
    of a key that is not stored, makes it return the delete-failed error,
    which carries the line. *)
Theorem Delete_result_by_line {S : Type} {T : Transport.Impl S}
  (k : key) (s s1 s2 s3 : S) (b : list ascii) (line : string) :
  Key.isValid k = None ->
  Transport.connect s = Ok None s1 ->
  Transport.Write ("delete " ++ k ++ CRLF) s1 = Ok None s2 ->
  Transport.Read [] s2 = Ok (b, (line, None)) s3 ->
  is_error_line line = false ->
  (line = DELETED -> Memcached.Delete k s = Ok None s3) /\
  (line <> DELETED ->
   Memcached.Delete k s = Ok (Some (ErrDeleteFailed line)) s3).
Proof.
  intros Hk Hc Hw Hr He.
  assert (Memcached.Delete k s =
          Ok (if negb (line =? "DELETED" ++ CRLF)
              then Some (ErrDeleteFailed line) else None) s3) as ->.
  { unfold Memcached.Delete. rewrite Hk, Delete_command_text.
    unfold bind at 1.
    rewrite (command_line_read _ s (s2 := s2) (s3 := s3) (b := b)
               (line := line) Hc); auto.
    now destruct (negb (line =? "DELETED" ++ CRLF)). }
  fold DELETED. split.
  - intros ->. now rewrite String.eqb_refl.
  - intro Hne. apply String.eqb_neq in Hne. now rewrite Hne.
Qed.

Lemma Delete_result_by_line_witness :
  result (Memcached.Delete "foo" (client (world_of [[DELETED]]))) =
    Some None /\
  result (Memcached.Delete "foo"
            (client (world_of [["NOT_FOUND" ++ CRLF]]))) =
    Some (Some (ErrDeleteFailed ("NOT_FOUND" ++ CRLF))).
Proof.
  split.
  - refine (f_equal result
      (proj1 (Delete_result_by_line "foo"
                (client (world_of [[DELETED]])) _ _ _ _ _) _));
      reflexivity.
  - refine (f_equal result
      (proj2 (Delete_result_by_line "foo"
                (client (world_of [["NOT_FOUND" ++ CRLF]])) _ _ _ _ _) _));
      try reflexivity.
    discriminate.
Defined.

(** ** What the operations ask of the transport *)

Ltac break_match :=
  match goal with
  | |- context [match ?x with _ => _ end] =>
      lazymatch x with
      | context [match _ with _ => _ end] => fail
      | _ => destruct x
      end
  end.

Ltac pick_shape :=
  unfold preamble_calls, payload_calls; cbn [app In];
  repeat (first [left; reflexivity | right]).

Ltac run_traced :=
  unfold calls_of, Memcached.command, Memcached.Close;
  cbn [Transport.connect Transport.Write Transport.Read Transport.Close
       Traced.impl];
  unfold bind, Traced.logged, ret, panic; cbn [fst snd];
  repeat (break_match; cbn [fst snd final_state app]).

(** X3. Whatever the transport answers, the calls [Set] and [Delete] make
    on it are none at all (the key was refused) or one of the sequences of
    the shared preamble for their command text: at most one write, of that
    text and its terminator; at most one read, of a line; and a close only
    as the last call, straight after the write or the read. *)
Theorem Set_Delete_calls {S : Type} {T : Transport.Impl S}
  (k : key) (value : string) (t : ttl) (s : S) :
  In (calls_of (Memcached.Set_ k value t (s, [])))
     ([] :: preamble_calls
              ("set " ++ k ++ " 0 " ++ fmt_d t ++ " "
                 ++ fmt_d (Z.of_nat (len value)) ++ CRLF ++ value)) /\
  In (calls_of (Memcached.Delete k (s, [])))
     ([] :: preamble_calls ("delete " ++ k)).
Proof.
  split.
  - unfold Memcached.Set_. rewrite Set_command_text. cbn [Ttl.isValid].
    destruct (Key.isValid k); [left; reflexivity|].
    right. run_traced; pick_shape.
  - unfold Memcached.Delete. rewrite Delete_command_text.
    destruct (Key.isValid k); [left; reflexivity|].
    right. run_traced; pick_shape.
Qed.

(** X4. Whatever the transport answers, the calls [Get] makes on it are
    none at all, or one of the sequences of the shared preamble for
    ["get " + key], or such a sequence with a successful line read followed
    by the read of a payload and, possibly, the read of seven more bytes.
    [Get] writes once at most and never closes the transport after the
    header line has been read: neither a header that does not parse, nor a
    failing payload read, nor a wrong trailer closes the connection. *)
Theorem Get_calls {S : Type} {T : Transport.Impl S} (k : key) (s : S) :
  exists n : nat,
    In (calls_of (Memcached.Get k (s, [])))
       ([] :: preamble_calls ("get " ++ k) ++ payload_calls ("get " ++ k) n).
Proof.
  unfold Memcached.Get. rewrite Get_command_text.
  destruct (Key.isValid k); [exists 0; left; reflexivity|].
  run_traced;
    solve [ exists 0; right; pick_shape
          | eexists; right; rewrite ?repeat_length; pick_shape ].
Qed.

(** ** Printing a number and scanning it back *)

Lemma digits_are_digits (d : Decimal.uint) (c : ascii) :
  In c (bytes_of (NilEmpty.string_of_uint d)) -> isDigit c = true.
Proof.
  unfold bytes_of.
  induction d; cbn [NilEmpty.string_of_uint list_ascii_of_string In];
    try tauto; (intros [<- | H]; [reflexivity | auto]).
Qed.

Lemma digits_value_acc (d : Decimal.uint) (acc : positive) :
  digits_value (Zpos acc) (NilEmpty.string_of_uint d) =
  Some (Zpos (Pos.of_uint_acc d acc)).
Proof.
  revert acc; induction d; intro acc;
    cbn [NilEmpty.string_of_uint digits_value Pos.of_uint_acc];
    try reflexivity;
    (match goal with
     | |- (if ?b then _ else _) = _ => change b with true; cbv iota
     end;
     rewrite <- IHd; f_equal;
     try (match goal with
          | |- context [Z.of_nat (nat_of_ascii ?c)] =>
              let v := eval vm_compute in (Z.of_nat (nat_of_ascii c)) in
              change (Z.of_nat (nat_of_ascii c)) with v
          end; lia)).
Qed.

Lemma digits_value_uint (d : Decimal.uint) :
  digits_value 0 (NilEmpty.string_of_uint d) = Some (Z.of_N (Pos.of_uint d)).
Proof.
  induction d; cbn [NilEmpty.string_of_uint digits_value Pos.of_uint];
    try reflexivity;
    match goal with
    | |- (if ?b then _ else _) = _ => change b with true; cbv iota
    end.
  - exact IHd.
  - exact (digits_value_acc d 1).
  - exact (digits_value_acc d 2).
  - exact (digits_value_acc d 3).
  - exact (digits_value_acc d 4).
  - exact (digits_value_acc d 5).
  - exact (digits_value_acc d 6).
  - exact (digits_value_acc d 7).
  - exact (digits_value_acc d 8).
  - exact (digits_value_acc d 9).
Qed.

(** What [%d] prints: a minus sign for a negative number, then a string of
    digits that is not empty and whose value is the absolute value. *)
Lemma fmt_d_shape (z : Z) :
  exists ds : string,
    ds <> "" /\
    (forall c, In c (bytes_of ds) -> isDigit c = true) /\
    digits_value 0 ds = Some (Z.abs z) /\
    fmt_d z = if (z <? 0)%Z then String "-" ds else ds.
Proof.
  destruct z as [|p|p]; unfold fmt_d; cbn [Z.to_int Z.ltb Z.compare Z.abs].
  - exists "0". repeat split; try discriminate.
    intros c [<- | []]. reflexivity.
  - exists (NilEmpty.string_of_uint (Pos.to_uint p)).
    assert (Pos.to_uint p <> Decimal.Nil) as Hn
      by apply DecimalPos.Unsigned.to_uint_nonnil.
    repeat split.
    + destruct (Pos.to_uint p); try discriminate. contradiction.
    + apply digits_are_digits.
    + now rewrite digits_value_uint, DecimalPos.Unsigned.of_to.
    + cbn [NilZero.string_of_int]. unfold NilZero.string_of_uint.
      destruct (Pos.to_uint p); try reflexivity. contradiction.
  - exists (NilEmpty.string_of_uint (Pos.to_uint p)).
    assert (Pos.to_uint p <> Decimal.Nil) as Hn
      by apply DecimalPos.Unsigned.to_uint_nonnil.
    repeat split.
    + destruct (Pos.to_uint p); try discriminate. contradiction.
    + apply digits_are_digits.
    + now rewrite digits_value_uint, DecimalPos.Unsigned.of_to.
    + cbn [NilZero.string_of_int]. unfold NilZero.string_of_uint.
      destruct (Pos.to_uint p); try reflexivity. contradiction.
Qed.





(** ** Scanning a header *)

Lemma valid_key_chars (k : key) :
  Key.isValid k = None ->
  k <> "" /\ forall c, In c (bytes_of k) -> isSpace c = false.
Proof.
  unfold Key.isValid.
  destruct (Nat.eqb_spec (len k) 0) as [|Hlen]; [discriminate|].
  destruct (250 <? len k)%nat; [discriminate|].
  destruct (MatchString re k) eqn:Hm; [discriminate|]. intros _.
  split.
  - intros ->. now apply Hlen.
  - intros c Hin. exact (proj2 (proj1 (MatchString_false k) Hm c Hin)).
Qed.







(** ** [Get] after the header *)













(** ** The socket transport: connecting and closing *)

Import TransportSocket.

Lemma client_is_wired (w : World) : wired (client w).
Proof. intro H. now contradiction H. Qed.

(** X9. [connect] is lazy.  On a socket whose reader is set whenever its
    connection is, a connect that succeeded leaves a connection and a
    reader, and a further connect returns at once in the same state.  After
    a connect that failed the error is a cannot-connect error, no
    connection was opened and the socket holds none, so that the next
    connect dials again. *)
Theorem connect_is_lazy (s : state) :
  wired s ->
  (forall s1,
     connect s = Ok None s1 ->
     conn (sock s1) <> None /\ reader (sock s1) <> None /\
     connect s1 = Ok None s1) /\
  (forall e s1,
     connect s = Ok (Some e) s1 ->
     (exists cause, e = ErrCannotConnect cause) /\
     conn (sock s1) = None /\ conn (sock s) = None /\
     conns (world s1) = conns (world s)).
Proof.
  destruct s as [[net addr c r] w]. unfold wired, connect.
  cbn [sock world conn reader network address]. intro Hw.
  split.
  - intros s1. destruct c as [h|].
    + intros [= <-]. cbn. repeat split; try discriminate.
      apply Hw. discriminate.
    + destruct (Dial net addr w) as [[h | dialErr] w']; intros [= <-].
      cbn. repeat split; discriminate.
  - intros e s1. destruct c as [h|]; [discriminate|].
    unfold Dial. cbn [dials conns stdout].
    destruct (dials w) as [|[segs|] later]; intros [= <- <-]; cbn;
      repeat split; eauto.
Qed.

Lemma connect_is_lazy_witness :
  (let s1 := final_state (connect (client (world_of [[STORED]]))) in
   connect s1 = Ok None s1) /\
  conn (sock (final_state (connect (client nobody)))) = None.
Proof.
  split.
  - cbv zeta.
    apply (proj1 (connect_is_lazy (@client_is_wired (world_of [[STORED]])))).
    reflexivity.
  - refine (proj1 (proj2 (proj2 (connect_is_lazy (@client_is_wired nobody))
                            (ErrCannotConnect errRefused) _ _))).
    reflexivity.
Defined.

(** ** The socket transport: no operation of the client dereferences nil *)

Lemma Close_returns (s : state) :
  exists s1, Close s = Ok tt s1 /\ sock s1 = sock s /\
             dials (world s1) = dials (world s).
Proof.
  unfold Close. destruct (conn (sock s)) as [h|]; [|eauto].
  unfold conn_Close.
  destruct (nth_error (conns (world s)) h) as [c|]; [destruct (closed c)|];
    eexists; repeat split.
Qed.







(** ** The socket transport: a closed client stays closed *)

Lemma Write_after_Close (s : state) (h : handle) (data : list ascii) :
  conn (sock s) = Some h ->
  sock (final_state (Close s)) = sock s /\
  dials (world (final_state (Close s))) = dials (world s) /\
  conn_Write h data (world (final_state (Close s))) =
    (Some errClosed, world (final_state (Close s))).
Proof.
  intro Hc. unfold Close. rewrite Hc. unfold conn_Close, conn_Write.
  destruct (nth_error (conns (world s)) h) as [c|] eqn:Hn.
  - destruct (closed c) eqn:Hcl; cbn [final_state sock world conns dials].
    + now rewrite Hn, Hcl.
    + cbn [set_conn conns].
      now rewrite (nth_error_replace_nth _ _ _ Hn).
  - cbn [final_state sock world conns dials]. now rewrite Hn.
Qed.

Lemma command_after_Close (s : state) (h : handle) (cmd : string) :
  conn (sock s) = Some h ->
  exists s'',
    Memcached.command cmd (final_state (Close s)) =
      Ok ("", Some (ErrWrite errClosed)) s'' /\
    sock s'' = sock s /\ dials (world s'') = dials (world s).
Proof.
  intro Hc.
  destruct (Write_after_Close s (bytes_of (cmd ++ CRLF)) Hc) as [Hs [Hd Hw]].
  set (s' := final_state (Close s)) in *.
  destruct (Close_returns s') as [s'' [Hcl [Hs'' Hd'']]].
  exists s''. repeat split; try congruence.
  unfold Memcached.command, Memcached.Close.
  cbn [Transport.connect Transport.Write Transport.Read Transport.Close impl].
  unfold bind at 1. unfold connect at 1. rewrite Hs, Hc.
  unfold bind at 1. unfold Write at 1. rewrite Hs, Hc, Hw.
  replace (mkState (sock s) (world s')) with s'
    by (destruct s' as [ts w]; cbn in *; now subst).
  unfold bind at 1. now rewrite Hcl.
Qed.

(** X11. Once the socket of a connected client has been closed, every
    operation with a valid key fails with a write error on the closed
    connection, and none of them dials: the socket keeps the handle that was
    closed, after this operation too. *)
Theorem closed_client_stays_closed (s : state) (h : handle)
  (k : key) (value : string) (t : ttl) :
  conn (sock s) = Some h ->
  Key.isValid k = None ->
  (exists s1,
     Memcached.Set_ k value t (final_state (Close s)) =
       Ok (Some (ErrWrite errClosed)) s1 /\
     conn (sock s1) = Some h /\ dials (world s1) = dials (world s)) /\
  (exists s2,
     Memcached.Get k (final_state (Close s)) =
       Ok ("", Some (ErrWrite errClosed)) s2 /\
     conn (sock s2) = Some h /\ dials (world s2) = dials (world s)) /\
  (exists s3,
     Memcached.Delete k (final_state (Close s)) =
       Ok (Some (ErrWrite errClosed)) s3 /\
     conn (sock s3) = Some h /\ dials (world s3) = dials (world s)).
Proof.
  intros Hc Hk.
  destruct (command_after_Close s
              (Sprintf ("set %s 0 %d %d" ++ CRLF ++ "%s")
                 [ArgS k; ArgD t; ArgD (Z.of_nat (len value)); ArgS value]) Hc)
    as [s1 [H1 [Hs1 Hd1]]].
  destruct (command_after_Close s (Sprintf "get %s" [ArgS k]) Hc)
    as [s2 [H2 [Hs2 Hd2]]].
  destruct (command_after_Close s (Sprintf "delete %s" [ArgS k]) Hc)
    as [s3 [H3 [Hs3 Hd3]]].
  split; [|split]; [exists s1 | exists s2 | exists s3];
    (split; [|split; congruence]).
  - unfold Memcached.Set_. rewrite Hk. cbn [Ttl.isValid].
    unfold bind. now rewrite H1.
  - unfold Memcached.Get. rewrite Hk. unfold bind at 1. now rewrite H2.
  - unfold Memcached.Delete. rewrite Hk. unfold bind. now rewrite H3.
Qed.

Lemma closed_client_stays_closed_witness :
  exists s2,
    Memcached.Get "foo"
      (final_state (Close (final_state
         (connect (client (world_of [[STORED]; [END]])))))) =
    Ok ("", Some (ErrWrite errClosed)) s2.
Proof.
  destruct (@closed_client_stays_closed
              (final_state (connect (client (world_of [[STORED]; [END]]))))
              0 "foo" "x" 10%Z eq_refl eq_refl)
    as [_ [[s2 [H _]] _]].
  exists s2. exact H.
Defined.

(** ** The socket transport: what a read hands out *)

Lemma next_segment_concat (segs : list (list ascii)) seg later :
  next_segment segs = Some (seg, later) ->
  concat segs = (seg ++ concat later)%list.
Proof.
  induction segs as [|[|c s0] segs IH]; simpl; intro H.
  - discriminate.
  - now apply IH.
  - now injection H as <- <-.
Qed.

(** A read of the connection that succeeds hands out the first bytes of
    its stream. *)
Lemma conn_Read_stream (h : handle) (room : nat) (w w' : World) data :
  conn_Read h room w = ((data, None), w') ->
  stream h w = (data ++ stream h w')%list.
Proof.
  unfold conn_Read, stream.
  destruct (nth_error (conns w) h) as [c|] eqn:Hc; [|discriminate].
  destruct (closed c); [discriminate|].
  destruct (next_segment (incoming c)) as [[seg later]|] eqn:Hn; [|discriminate].
  intros [= <- <-].
  cbn [conns set_conn]. rewrite (nth_error_replace_nth _ _ _ Hc).
  cbn [incoming]. rewrite (next_segment_concat _ Hn).
  rewrite <- (firstn_skipn room seg) at 1. rewrite <- app_assoc. f_equal.
  destruct (skipn room seg); reflexivity.
Qed.

Lemma unread_reader (s : state) (b : Reader) :
  reader (sock s) = Some b ->
  unread s = (buf b ++ stream (rd b) (world s))%list.
Proof. intro H. unfold unread, stream. now rewrite H. Qed.

Lemma unread_with_reader (ts : t) (b : Reader) (w : World) :
  unread (mkState (with_reader ts b) w) = (buf b ++ stream (rd b) w)%list.
Proof. reflexivity. Qed.

Lemma firstn_prefix {A : Type} (n : nat) (src tail : list A) :
  n <= length src ->
  firstn n (src ++ tail) = firstn n src /\
  (src ++ tail = firstn n src ++ (skipn n src ++ tail))%list.
Proof.
  intro Hn. split.
  - rewrite firstn_app. replace (n - length src) with 0 by lia.
    cbn. now rewrite app_nil_r.
  - now rewrite app_assoc, firstn_skipn.
Qed.

(** X12. The exact-length mode of the socket transport.  A read into a
    slice that is not empty, when it succeeds, has taken some number [n] of
    bytes, at least one and at most the length of the slice, off the front
    of the unread stream and no other: the slice afterwards is these [n]
    bytes followed by what it held beyond them, the stream afterwards is the
    stream without them, and the string returned is the whole slice. *)
Theorem Read_exact_takes_a_prefix (s s' : state) (bytes bytes' : list ascii)
  (str : string) :
  bytes <> [] ->
  Read bytes s = Ok (bytes', (str, None)) s' ->
  exists n,
    0 < n <= length bytes /\
    bytes' = (firstn n (unread s) ++ skipn n bytes)%list /\
    unread s = (firstn n (unread s) ++ unread s')%list /\
    str = string_of bytes'.
Proof.
  intros Hne. unfold Read.
  destruct (reader (sock s)) as [b|] eqn:Hb; [|discriminate].
  rewrite (unread_reader s Hb).
  destruct bytes as [|c0 bytes]; [contradiction|].
  cbn [length Nat.eqb]. unfold Reader_Read, copy.
  set (p := c0 :: bytes) in *.
  destruct (buf b) as [|d0 rest] eqn:Hbuf.
  - destruct (conn_Read (rd b)
                (if (bufSize <=? length p)%nat then length p else bufSize)
                (world s)) as [[data [e|]] w'] eqn:Hr; [intros [=]|].
    intros [= <- <- <-].
    pose proof (conn_Read_stream _ _ _ Hr) as Hst.
    apply conn_Read_takes_bytes in Hr;
      [|destruct (bufSize <=? length p)%nat; unfold bufSize; subst p; cbn; lia].
    destruct Hr as [Hpos _].
    exists (Nat.min (length p) (length data)).
    cbn [app]. rewrite Hst, unread_with_reader. cbn [rd buf].
    destruct (@firstn_prefix _ (Nat.min (length p) (length data)) data
                (stream (rd b) w')) as [-> Hsplit]; [lia|].
    repeat split; try (subst p; cbn [length]; lia). exact Hsplit.
  - intros [= <- <- <-].
    exists (Nat.min (length p) (length (d0 :: rest))).
    rewrite unread_with_reader. cbn [rd buf].
    destruct (@firstn_prefix _ (Nat.min (length p) (length (d0 :: rest)))
                (d0 :: rest) (stream (rd b) (world s))) as [-> Hsplit]; [lia|].
    repeat split; try (subst p; cbn [length]; lia). exact Hsplit.
Qed.

Lemma Read_exact_takes_a_prefix_witness :
  exists n,
    0 < n <= 4 /\
    (bytes_of "ab" ++ zeroes 2)%list =
      (firstn n (bytes_of "abcd") ++ skipn n (zeroes 4))%list.
Proof.
  destruct (@Read_exact_takes_a_prefix
              (final_state (connect (client (world_of [["ab"; "cd"]]))))
              _ (zeroes 4) _ _ ltac:(discriminate) eq_refl)
    as [n [Hn [Hb _]]].
  exists n. split; [exact Hn | exact Hb].
Defined.

Lemma split_line_some (l line rest : list ascii) :
  split_line l = Some (line, rest) ->
  exists body,
    line = (body ++ [LF])%list /\ ~ In LF body /\ l = (line ++ rest)%list.
Proof.
  revert line rest; induction l as [|c l IH]; intros line rest; cbn [split_line].
  - discriminate.
  - destruct (Ascii.eqb_spec c LF) as [-> | Hc].
    + intros [= <- <-]. exists []. repeat split. intros [].
    + destruct (split_line l) as [[line' rest']|]; [|discriminate].
      intros [= <- <-].
      destruct (IH _ _ eq_refl) as [body [-> [Hno ->]]].
      exists (c :: body). repeat split.
      intros [H | H]; [now apply Hc | now apply Hno].
Qed.

Lemma split_line_none (l : list ascii) :
  split_line l = None -> ~ In LF l.
Proof.
  induction l as [|c l IH]; cbn [split_line]; [intros _ []|].
  destruct (Ascii.eqb_spec c LF) as [-> | Hc]; [discriminate|].
  destruct (split_line l) as [[line rest]|]; [discriminate|].
  intros _ [H | H]; [now apply Hc | now apply IH].
Qed.

(** What the loop of [ReadString] returns on success: the bytes gathered
    so far, then the bytes up to the first line feed of the buffer and the
    stream, which leave them. *)
Lemma ReadString_loop_line (fuel : nat) :
  forall acc b w line b' w',
    ReadString_loop fuel acc b w = ((line, None), b', w') ->
    exists body,
      line = string_of (acc ++ body ++ [LF])%list /\ ~ In LF body /\
      rd b' = rd b /\
      (buf b ++ stream (rd b) w =
       (body ++ [LF]) ++ buf b' ++ stream (rd b) w')%list.
Proof.
  induction fuel as [|fuel IH]; intros acc b w line b' w';
    cbn [ReadString_loop];
    destruct (split_line (buf b)) as [[l rest]|] eqn:Hs.
  - intros [= <- <- <-]. destruct (split_line_some _ Hs) as [body [-> [Hno Hb]]].
    exists body. repeat split; auto. cbn [buf]. rewrite Hb.
    now rewrite <- !app_assoc.
  - discriminate.
  - intros [= <- <- <-]. destruct (split_line_some _ Hs) as [body [-> [Hno Hb]]].
    exists body. repeat split; auto. cbn [buf]. rewrite Hb.
    now rewrite <- !app_assoc.
  - pose proof (split_line_none _ Hs) as Hno.
    destruct (bufSize <=? length (buf b))%nat.
    + intro H. apply IH in H. cbn [rd buf] in H.
      destruct H as [body [-> [Hnb [Hrd Hst]]]].
      exists (buf b ++ body)%list. repeat split; auto.
      * now rewrite <- !app_assoc.
      * intro Hin. apply in_app_or in Hin. tauto.
      * cbn [app] in Hst. rewrite Hst. now rewrite <- !app_assoc.
    + destruct (conn_Read (rd b) (bufSize - length (buf b)) w)
        as [[data [e|]] w1] eqn:Hr; [discriminate|].
      intro H. apply IH in H. cbn [rd buf] in H.
      destruct H as [body [-> [Hnb [Hrd Hst]]]].
      exists body. repeat split; auto.
      rewrite (conn_Read_stream _ _ _ Hr), app_assoc. exact Hst.
Qed.

(** X13. The line mode of the socket transport.  A read with an empty
    slice, when it succeeds, returns the bytes of the unread stream up to
    and including its first line feed, and takes exactly these off the
    stream. *)
Theorem Read_line_takes_the_next_line (s s' : state) (bytes' : list ascii)
  (line : string) :
  Read [] s = Ok (bytes', (line, None)) s' ->
  exists body,
    line = string_of (body ++ [LF])%list /\ ~ In LF body /\
    unread s = (bytes_of line ++ unread s')%list.
Proof.
  unfold Read.
  destruct (reader (sock s)) as [b|] eqn:Hb; [|discriminate].
  cbn [length Nat.eqb]. unfold ReadString.
  destruct (ReadString_loop (2 * pending (rd b) (world s) + 2) [] b (world s))
    as [[[l [e|]] b'] w'] eqn:Hl; [discriminate|].
  intros [= <- <- <-].
  apply ReadString_loop_line in Hl.
  destruct Hl as [body [-> [Hno [Hrd Hst]]]].
  exists body. repeat split; auto.
  rewrite (unread_reader s Hb), unread_with_reader, Hrd, Hst.
  unfold bytes_of, string_of. cbn [app].
  now rewrite list_ascii_of_string_of_list_ascii.
Qed.

Lemma Read_line_takes_the_next_line_witness :
  exists body,
    STORED = string_of (body ++ [LF])%list /\ ~ In LF body.
Proof.
  destruct (@Read_line_takes_the_next_line
              (final_state (connect (client (world_of [[STORED ++ END]]))))
              _ _ STORED eq_refl)
    as [body [H1 [H2 _]]].
  exists body. split; [exact H1 | exact H2].
Defined.

(** ** The socket transport: a fetch whose response arrives whole *)

Lemma bytes_of_append (a b : string) :
  bytes_of (a ++ b) = (bytes_of a ++ bytes_of b)%list.
Proof.
  unfold bytes_of. induction a as [|c a IH]; cbn; [reflexivity|].
  now rewrite IH.
Qed.

Lemma bytes_of_length (a : string) : length (bytes_of a) = len a.
Proof.
  unfold bytes_of, len. induction a as [|c a IH]; cbn; [reflexivity|].
  now rewrite IH.
Qed.

Lemma split_line_at (a r : list ascii) :
  ~ In LF a -> split_line (a ++ LF :: r) = Some ((a ++ [LF])%list, r).
Proof.
  induction a as [|c a IH]; intro Hno; cbn [app split_line].
  - reflexivity.
  - destruct (Ascii.eqb_spec c LF) as [-> | _].
    + exfalso. apply Hno. now left.
    + rewrite IH; [reflexivity|]. intro H. apply Hno. now right.
Qed.

Lemma key_has_no_LF (k : key) : Key.isValid k = None -> ~ In LF (bytes_of k).
Proof.
  intros Hk Hin. destruct (valid_key_chars _ Hk) as [_ Hsp].
  specialize (Hsp _ Hin). discriminate Hsp.
Qed.

Lemma fmt_d_has_no_LF (z : Z) : ~ In LF (bytes_of (fmt_d z)).
Proof.
  destruct (fmt_d_shape z) as [ds [_ [Hds [_ ->]]]].
  assert (~ In LF (bytes_of ds)) as Hno.
  { intro Hin. specialize (Hds _ Hin). discriminate Hds. }
  destruct (z <? 0)%Z; [|exact Hno].
  intros [H | H]; [discriminate H | now apply Hno].
Qed.







(** ** The socket transport: one connection for the life of the client *)

Lemma keeps_ret {A : Type} (a : A) : keeps_link (ret a).
Proof. intros s _. split; reflexivity. Qed.

Lemma keeps_panic {A : Type} (msg : string) : keeps_link (@panic state A msg).
Proof. intros s _. split; reflexivity. Qed.

Lemma keeps_bind {A B : Type} (m : M state A) (f : A -> M state B) :
  keeps_link m -> (forall a, keeps_link (f a)) -> keeps_link (bind m f).
Proof.
  intros Hm Hf s Hs. specialize (Hm s Hs). unfold bind.
  destruct (m s) as [a s1 | msg s1]; cbn [final_state] in Hm |- *;
    [|exact Hm].
  destruct Hm as [Hc Hd].
  assert (conn (sock s1) <> None) as Hs1 by now rewrite Hc.
  destruct (Hf a s1 Hs1) as [Hc' Hd']. split; congruence.
Qed.

Lemma conn_Read_dials (h : handle) (room : nat) (w : World) :
  dials (snd (conn_Read h room w)) = dials w.
Proof.
  unfold conn_Read.
  destruct (nth_error (conns w) h) as [c|]; [|reflexivity].
  destruct (closed c); [reflexivity|].
  destruct (next_segment (incoming c)) as [[seg later]|]; reflexivity.
Qed.

Lemma ReadString_loop_dials (fuel : nat) :
  forall acc b w, dials (snd (ReadString_loop fuel acc b w)) = dials w.
Proof.
  induction fuel as [|fuel IH]; intros acc b w; cbn [ReadString_loop];
    destruct (split_line (buf b)) as [[line rest]|]; try reflexivity.
  destruct (bufSize <=? length (buf b))%nat; [apply IH|].
  pose proof (conn_Read_dials (rd b) (bufSize - length (buf b)) w) as Hd.
  destruct (conn_Read (rd b) (bufSize - length (buf b)) w)
    as [[data [e|]] w']; cbn [snd] in Hd |- *; [exact Hd|].
  now rewrite IH.
Qed.

Lemma keeps_connect : keeps_link connect.
Proof.
  intros s Hs. unfold connect.
  destruct (conn (sock s)); [split; reflexivity | contradiction].
Qed.

Lemma keeps_Close : keeps_link Close.
Proof.
  intros s _. destruct (Close_returns s) as [s1 [-> [Hs Hd]]].
  split; cbn [final_state]; congruence.
Qed.

Lemma keeps_Write (data : string) : keeps_link (Write data).
Proof.
  intros s Hs. unfold Write.
  destruct (conn (sock s)) as [h|]; [|contradiction].
  unfold conn_Write.
  destruct (nth_error (conns (world s)) h) as [c|]; [destruct (closed c)|];
    split; reflexivity.
Qed.

Lemma keeps_Read (bytes : list ascii) : keeps_link (Read bytes).
Proof.
  intros s _. unfold Read.
  destruct (reader (sock s)) as [b|]; [|split; reflexivity].
  destruct (length bytes =? 0)%nat.
  - unfold ReadString.
    pose proof (ReadString_loop_dials
                  (2 * pending (rd b) (world s) + 2) [] b (world s)) as Hd.
    destruct (ReadString_loop (2 * pending (rd b) (world s) + 2) [] b (world s))
      as [[[line [e|]] b'] w']; split; try reflexivity; exact Hd.
  - unfold Reader_Read. destruct bytes as [|c0 bytes]; [split; reflexivity|].
    destruct (buf b) as [|d0 rest]; [|split; reflexivity].
    match goal with
    | |- context [conn_Read ?h ?room ?w] =>
        pose proof (conn_Read_dials h room w) as Hd;
        destruct (conn_Read h room w) as [[data [e|]] w']
    end; split; try reflexivity; exact Hd.
Qed.

Lemma keeps_command (cmd : string) : keeps_link (Memcached.command cmd).
Proof.
  unfold Memcached.command, Memcached.Close.
  cbn [Transport.connect Transport.Write Transport.Read Transport.Close impl].
  apply keeps_bind; [apply keeps_connect|]. intros [e|]; [apply keeps_ret|].
  apply keeps_bind; [apply keeps_Write|]. intros [e|].
  { apply keeps_bind; [apply keeps_Close | intros; apply keeps_ret]. }
  apply keeps_bind; [apply keeps_Read|]. intros [b [line [e|]]].
  { apply keeps_bind; [apply keeps_Close | intros; apply keeps_ret]. }
  destruct (line =? "ERROR" ++ CRLF); [apply keeps_ret|].
  destruct (prefix "CLIENT_ERROR " line || prefix "SERVER_ERROR " line);
    apply keeps_ret.
Qed.

(** X16. A socket that holds a connection keeps it for good: after [Set],
    [Get] or [Delete], whatever their outcome, the socket holds the same
    handle and no dial has been made.  The connection made by the first
    command is the only one the client ever has. *)
Theorem connection_is_kept (k : key) (value : string) (t : ttl) (s : state) :
  conn (sock s) <> None ->
  same_link s (final_state (Memcached.Set_ k value t s)) /\
  same_link s (final_state (Memcached.Get k s)) /\
  same_link s (final_state (Memcached.Delete k s)).
Proof.
  intro Hs. split; [|split].
  - revert s Hs. change (keeps_link (Memcached.Set_ k value t)).
    unfold Memcached.Set_.
    destruct (Key.isValid k); [apply keeps_ret|]. cbn [Ttl.isValid].
    apply keeps_bind; [apply keeps_command|]. intros [resp [e|]];
      [apply keeps_ret|].
    destruct (negb (resp =? "STORED" ++ CRLF)); apply keeps_ret.
  - revert s Hs. change (keeps_link (Memcached.Get k)).
    unfold Memcached.Get.
    destruct (Key.isValid k); [apply keeps_ret|].
    apply keeps_bind; [apply keeps_command|]. intros [header [e|]];
      [apply keeps_ret|].
    destruct (header =? "END" ++ CRLF); [apply keeps_ret|].
    destruct (Sscanf_VALUE header k 0 0) as [n [[k0 f0] bytes]].
    destruct (negb (n =? 3)%nat); [apply keeps_ret|].
    destruct (bytes <? 0)%Z; [apply keeps_panic|].
    cbn [Transport.Read impl].
    apply keeps_bind; [apply keeps_Read|]. intros [data [str [e|]]];
      [apply keeps_ret|].
    apply keeps_bind; [apply keeps_Read|]. intros [trailer [str' [e|]]];
      [apply keeps_ret|].
    destruct (negb (string_of trailer =? CRLF ++ "END" ++ CRLF));
      apply keeps_ret.
  - revert s Hs. change (keeps_link (Memcached.Delete k)).
    unfold Memcached.Delete.
    destruct (Key.isValid k); [apply keeps_ret|].
    apply keeps_bind; [apply keeps_command|]. intros [resp [e|]];
      [apply keeps_ret|].
    destruct (negb (resp =? "DELETED" ++ CRLF)); apply keeps_ret.
Qed.

Lemma connection_is_kept_witness :
  same_link
    (final_state (connect (client (world_of [[]; [END]]))))
    (final_state (Memcached.Get "foo"
       (final_state (connect (client (world_of [[]; [END]])))))).
Proof.
  refine (proj1 (proj2 (@connection_is_kept "foo" "x" 10%Z
            (final_state (connect (client (world_of [[]; [END]])))) _))).
  discriminate.
Defined.

(** ** The requests on the wire *)

Lemma no_LF_append (a b : string) :
  ~ In LF (bytes_of a) -> ~ In LF (bytes_of b) -> ~ In LF (bytes_of (a ++ b)).
Proof.
  intros Ha Hb. rewrite bytes_of_append. intro H.
  apply in_app_or in H. tauto.
Qed.

Lemma no_LF_literal (a : string) :
  forallb (fun c => negb (c =? LF)%char) (bytes_of a) = true ->
  ~ In LF (bytes_of a).
Proof.
  intros H Hin. rewrite forallb_forall in H. specialize (H _ Hin).
  now rewrite Ascii.eqb_refl in H.
Qed.

Lemma split_line_last (a : string) :
  ~ In LF (bytes_of a) ->
  forall rest : string,
    split_line (bytes_of (a ++ CRLF ++ rest)) =
    Some (bytes_of (a ++ CRLF), bytes_of rest).
Proof.
  intros Ha rest.
  assert (forall x, bytes_of (a ++ CRLF ++ x) =
                    ((bytes_of a ++ [CR]) ++ LF :: bytes_of x)%list) as Happ.
  { intro x. rewrite bytes_of_append, <- app_assoc. reflexivity. }
  rewrite Happ, split_line_at.
  - rewrite bytes_of_append, <- app_assoc. reflexivity.
  - intro H. apply in_app_or in H.
    destruct H as [H | [H | []]]; [now apply Ha | discriminate H].
Qed.

(** X15. What the operations write for a valid key is framed by its first
    line feed.  The texts of [Get] and [Delete] are one line each.  The
    text of [Set] has as its first line the header
    ["set <key> 0 <ttl> <len>\r\n"], whatever bytes the value holds, and
    what follows the header is the value and the two bytes of the
    terminator: the number of bytes the header declares, and two more. *)
Theorem requests_are_framed (k : key) (value : string) (t : ttl) :
  Key.isValid k = None ->
  split_line (bytes_of (Sprintf "get %s" [ArgS k] ++ CRLF)) =
    Some (bytes_of ("get " ++ k ++ CRLF), []) /\
  split_line (bytes_of (Sprintf "delete %s" [ArgS k] ++ CRLF)) =
    Some (bytes_of ("delete " ++ k ++ CRLF), []) /\
  split_line
    (bytes_of (Sprintf ("set %s 0 %d %d" ++ CRLF ++ "%s")
                 [ArgS k; ArgD t; ArgD (Z.of_nat (len value)); ArgS value]
               ++ CRLF)) =
    Some (bytes_of ("set " ++ k ++ " 0 " ++ fmt_d t ++ " "
                      ++ fmt_d (Z.of_nat (len value)) ++ CRLF),
          bytes_of (value ++ CRLF)) /\
  length (bytes_of (value ++ CRLF)) = len value + 2.
Proof.
  intro Hk. pose proof (key_has_no_LF _ Hk) as Hno.
  rewrite Get_command_text, Delete_command_text, Set_command_text.
  repeat split.
  - refine (split_line_last ("get " ++ k) _ "").
    apply no_LF_append; [now apply no_LF_literal | exact Hno].
  - refine (split_line_last ("delete " ++ k) _ "").
    apply no_LF_append; [now apply no_LF_literal | exact Hno].
  - set (hd := "set " ++ k ++ " 0 " ++ fmt_d t ++ " "
                 ++ fmt_d (Z.of_nat (len value))).
    assert (("set " ++ k ++ " 0 " ++ fmt_d t ++ " "
               ++ fmt_d (Z.of_nat (len value)) ++ CRLF ++ value) ++ CRLF =
            hd ++ CRLF ++ value ++ CRLF) as E1
      by (unfold hd; now rewrite !append_assoc).
    assert ("set " ++ k ++ " 0 " ++ fmt_d t ++ " "
               ++ fmt_d (Z.of_nat (len value)) ++ CRLF = hd ++ CRLF) as E2
      by (unfold hd; now rewrite !append_assoc).
    rewrite E1, E2. apply split_line_last. unfold hd.
    repeat (apply no_LF_append);
      try (now apply no_LF_literal); try exact Hno; apply fmt_d_has_no_LF.
  - rewrite bytes_of_append, length_app, bytes_of_length. reflexivity.
Qed.

Lemma requests_are_framed_witness :
  split_line
    (bytes_of (Sprintf ("set %s 0 %d %d" ++ CRLF ++ "%s")
                 [ArgS "foo"; ArgD 10; ArgD (Z.of_nat (len original));
                  ArgS original]
               ++ CRLF)) =
  Some (bytes_of ("set foo 0 10 27" ++ CRLF), bytes_of (original ++ CRLF)).
Proof.
  exact (proj1 (proj2 (proj2 (@requests_are_framed "foo" original 10%Z
                                eq_refl)))).
Defined.
